(** * ngx-history: the navigation-history state machine of [HistoryService]

    A shallow embedding of
    [projects/ngx-history/src/lib/history.service.ts].  The private members
    of the class become the fields of a record, every method becomes a
    function on that record, and the [async] methods are split at their
    [await] into the part that runs before the suspension and the part that
    runs when the awaited promise settles.  An event-driven world on top of
    the record interleaves method calls, location notifications and router
    completions the way the single-threaded JavaScript run-time does. *)

From Stdlib Require Import ZArith String Ascii DecimalString Decimal.
From stdpp Require Import base tactics option list strings.

Local Open Scope string_scope.
Local Open Scope Z_scope.

(** ** JavaScript primitives used by the service *)

Module Js.

(** [a || b] on strings: the empty string is the only falsy string. *)
Definition or (a b : string) : string :=
  if String.eqb a "" then b else a.

(** [path || b] where [path] may be [undefined]. *)
Definition or_undefined (a : option string) (b : string) : string :=
  match a with
  | Some x => or x b
  | None => b
  end.

(** [arr.length] *)
Definition length {A} (arr : list A) : Z := Z.of_nat (List.length arr).

(** [arr[i]]: [undefined] outside the array. *)
Definition get {A} (arr : list A) (i : Z) : option A :=
  if i <? 0 then None else arr !! Z.to_nat i.

(** [arr.indexOf(x)]: first position of [x], or [-1]. *)
Fixpoint indexOf (arr : list string) (x : string) : Z :=
  match arr with
  | [] => -1
  | y :: rest =>
      if String.eqb y x then 0
      else let r := indexOf rest x in
           if r <? 0 then -1 else r + 1
  end.

(** [arr.includes(x)] *)
Fixpoint includes (arr : list string) (x : string) : bool :=
  match arr with
  | [] => false
  | y :: rest => String.eqb y x || includes rest x
  end.

(** The array left by [arr.splice(start)]: a negative [start] counts from
    the end, and everything from the start position on is removed. *)
Definition splice_from {A} (start : Z) (arr : list A) : list A :=
  let len := length arr in
  let actualStart :=
    if start <? 0 then Z.max (len + start) 0 else Z.min start len in
  take (Z.to_nat actualStart) arr.

(** The array left by [arr.splice(0, deleteCount)]: the count is clamped
    to [0 .. arr.length]. *)
Definition splice_front {A} (deleteCount : Z) (arr : list A) : list A :=
  let len := length arr in
  let actualDeleteCount := Z.min (Z.max deleteCount 0) len in
  drop (Z.to_nat actualDeleteCount) arr.

(** [`${n}`] for an integer [n]. *)
Definition show (n : Z) : string := NilEmpty.string_of_int (Z.to_int n).

(** [arr.slice(start)]: a negative [start] counts from the end. *)
Definition slice_from {A} (start : Z) (arr : list A) : list A :=
  let len := length arr in
  let k := if start <? 0 then Z.max (len + start) 0 else Z.min start len in
  drop (Z.to_nat k) arr.

End Js.

(** ** Data model *)

Record HistoryConfig := {
  maxHistoryLength : Z;
  debugMode : bool;
  autoInitialize : bool;
  defaultRoute : string;
}.

Definition DEFAULT_HISTORY_CONFIG : HistoryConfig :=
  {| maxHistoryLength := 50;
     debugMode := false;
     autoInitialize := true;
     defaultRoute := "/" |}.

(** [Partial<HistoryConfig>] and the spread [{ ...DEFAULT, ...config }]. *)
Record PartialHistoryConfig := {
  maxHistoryLength_opt : option Z;
  debugMode_opt : option bool;
  autoInitialize_opt : option bool;
  defaultRoute_opt : option string;
}.

Definition merge_config (config : option PartialHistoryConfig) : HistoryConfig :=
  match config with
  | None => DEFAULT_HISTORY_CONFIG
  | Some c =>
      {| maxHistoryLength :=
           default (maxHistoryLength DEFAULT_HISTORY_CONFIG) (maxHistoryLength_opt c);
         debugMode := default (debugMode DEFAULT_HISTORY_CONFIG) (debugMode_opt c);
         autoInitialize :=
           default (autoInitialize DEFAULT_HISTORY_CONFIG) (autoInitialize_opt c);
         defaultRoute := default (defaultRoute DEFAULT_HISTORY_CONFIG) (defaultRoute_opt c) |}
  end.

Inductive NavigationErrorType :=
| NAVIGATION_FAILED
| INVALID_INDEX
| INITIALIZATION_FAILED
| CONCURRENT_NAVIGATION.

(** The [timestamp] of the source ([new Date()]) is wall-clock time and is
    left out; a thrown value is represented by its string rendering. *)
Record NavigationError := {
  type : NavigationErrorType;
  message : string;
  originalError : option string;
}.

Record NavigationState := {
  st_paths : list string;
  st_currentIndex : Z;
  st_canGoBack : bool;
  st_canGoForward : bool;
  st_currentPath : string;
  st_historyLength : Z;
  st_isNavigating : bool;
}.

(** The private members of [HistoryService].  [navigationPromise] holds the
    handle of the promise stored there, [navigationState_log] the values
    pushed into the [BehaviorSubject] (newest first) and
    [navigationError_log] the values pushed into the error [Subject]
    (newest first).  [location_path] is what the injected [Location]
    answers to [path()]. *)
Record Service := {
  navigationPromise : option nat;
  isInternalNavigation : bool;
  previousPath : option string;
  isInitialized : bool;
  _paths : list string;
  _currentIndex : Z;
  _isNavigating : bool;
  navigationState_log : list NavigationState;
  navigationError_log : list NavigationError;
  location_path : string;
}.

Definition set_navigationPromise v (s : Service) : Service :=
  {| navigationPromise := v;
     isInternalNavigation := isInternalNavigation s;
     previousPath := previousPath s;
     isInitialized := isInitialized s;
     _paths := _paths s;
     _currentIndex := _currentIndex s;
     _isNavigating := _isNavigating s;
     navigationState_log := navigationState_log s;
     navigationError_log := navigationError_log s;
     location_path := location_path s |}.

Definition set_isInternalNavigation v (s : Service) : Service :=
  {| navigationPromise := navigationPromise s;
     isInternalNavigation := v;
     previousPath := previousPath s;
     isInitialized := isInitialized s;
     _paths := _paths s;
     _currentIndex := _currentIndex s;
     _isNavigating := _isNavigating s;
     navigationState_log := navigationState_log s;
     navigationError_log := navigationError_log s;
     location_path := location_path s |}.

Definition set_previousPath v (s : Service) : Service :=
  {| navigationPromise := navigationPromise s;
     isInternalNavigation := isInternalNavigation s;
     previousPath := v;
     isInitialized := isInitialized s;
     _paths := _paths s;
     _currentIndex := _currentIndex s;
     _isNavigating := _isNavigating s;
     navigationState_log := navigationState_log s;
     navigationError_log := navigationError_log s;
     location_path := location_path s |}.

Definition set_isInitialized v (s : Service) : Service :=
  {| navigationPromise := navigationPromise s;
     isInternalNavigation := isInternalNavigation s;
     previousPath := previousPath s;
     isInitialized := v;
     _paths := _paths s;
     _currentIndex := _currentIndex s;
     _isNavigating := _isNavigating s;
     navigationState_log := navigationState_log s;
     navigationError_log := navigationError_log s;
     location_path := location_path s |}.

Definition set_paths v (s : Service) : Service :=
  {| navigationPromise := navigationPromise s;
     isInternalNavigation := isInternalNavigation s;
     previousPath := previousPath s;
     isInitialized := isInitialized s;
     _paths := v;
     _currentIndex := _currentIndex s;
     _isNavigating := _isNavigating s;
     navigationState_log := navigationState_log s;
     navigationError_log := navigationError_log s;
     location_path := location_path s |}.

Definition set_currentIndex v (s : Service) : Service :=
  {| navigationPromise := navigationPromise s;
     isInternalNavigation := isInternalNavigation s;
     previousPath := previousPath s;
     isInitialized := isInitialized s;
     _paths := _paths s;
     _currentIndex := v;
     _isNavigating := _isNavigating s;
     navigationState_log := navigationState_log s;
     navigationError_log := navigationError_log s;
     location_path := location_path s |}.

Definition set_isNavigating v (s : Service) : Service :=
  {| navigationPromise := navigationPromise s;
     isInternalNavigation := isInternalNavigation s;
     previousPath := previousPath s;
     isInitialized := isInitialized s;
     _paths := _paths s;
     _currentIndex := _currentIndex s;
     _isNavigating := v;
     navigationState_log := navigationState_log s;
     navigationError_log := navigationError_log s;
     location_path := location_path s |}.

Definition push_navigationState v (s : Service) : Service :=
  {| navigationPromise := navigationPromise s;
     isInternalNavigation := isInternalNavigation s;
     previousPath := previousPath s;
     isInitialized := isInitialized s;
     _paths := _paths s;
     _currentIndex := _currentIndex s;
     _isNavigating := _isNavigating s;
     navigationState_log := v :: navigationState_log s;
     navigationError_log := navigationError_log s;
     location_path := location_path s |}.

Definition push_navigationError v (s : Service) : Service :=
  {| navigationPromise := navigationPromise s;
     isInternalNavigation := isInternalNavigation s;
     previousPath := previousPath s;
     isInitialized := isInitialized s;
     _paths := _paths s;
     _currentIndex := _currentIndex s;
     _isNavigating := _isNavigating s;
     navigationState_log := navigationState_log s;
     navigationError_log := v :: navigationError_log s;
     location_path := location_path s |}.

Definition set_location_path v (s : Service) : Service :=
  {| navigationPromise := navigationPromise s;
     isInternalNavigation := isInternalNavigation s;
     previousPath := previousPath s;
     isInitialized := isInitialized s;
     _paths := _paths s;
     _currentIndex := _currentIndex s;
     _isNavigating := _isNavigating s;
     navigationState_log := navigationState_log s;
     navigationError_log := navigationError_log s;
     location_path := v |}.

(** ** The synchronous methods *)

Section Methods.

Variable config : HistoryConfig.

(** [get canGoBack] *)
Definition canGoBack (s : Service) : bool := 0 <? _currentIndex s.

(** [get canGoForward] *)
Definition canGoForward (s : Service) : bool :=
  _currentIndex s <? Js.length (_paths s) - 1.

(** [get currentPath]: the observed location, or the default route. *)
Definition currentPath (s : Service) : string :=
  let defaultRoute := Js.or (defaultRoute config) "/" in
  Js.or (location_path s) defaultRoute.

(** [get historyLength] *)
Definition historyLength (s : Service) : Z := Js.length (_paths s).

(** [get currentState]: the value held by the [BehaviorSubject]. *)
Definition currentState (s : Service) : option NavigationState :=
  head (navigationState_log s).

Definition createInitialState : NavigationState :=
  {| st_paths := [];
     st_currentIndex := 0;
     st_canGoBack := false;
     st_canGoForward := false;
     st_currentPath := Js.or (defaultRoute config) "/";
     st_historyLength := 0;
     st_isNavigating := false |}.

Definition updateNavigationState (s : Service) : Service :=
  push_navigationState
    {| st_paths := _paths s;
       st_currentIndex := _currentIndex s;
       st_canGoBack := canGoBack s;
       st_canGoForward := canGoForward s;
       st_currentPath := currentPath s;
       st_historyLength := historyLength s;
       st_isNavigating := _isNavigating s |} s.

Definition emitError (t : NavigationErrorType) (msg : string)
    (original : option string) (s : Service) : Service :=
  push_navigationError
    {| type := t; message := msg; originalError := original |} s.

(** [addToHistory]: push, then drop from the front what exceeds
    [maxHistoryLength] and move the index by the number dropped. *)
Definition addToHistory (path : string) (s : Service) : Service :=
  let s1 := set_paths (_paths s ++ [path]) s in
  if maxHistoryLength config <? Js.length (_paths s1) then
    let removedCount := Js.length (_paths s1) - maxHistoryLength config in
    let s2 := set_paths (Js.splice_front removedCount (_paths s1)) s1 in
    set_currentIndex (Z.max 0 (_currentIndex s2 - removedCount)) s2
  else s1.

Definition handleInternalNavigation (s : Service) : Service :=
  updateNavigationState
    (set_isNavigating false (set_isInternalNavigation false s)).

Definition handleExternalNavigation (path : string) (s : Service) : Service :=
  let s1 :=
    if _currentIndex s <? Js.length (_paths s) - 1
    then set_paths (Js.splice_from (_currentIndex s + 1) (_paths s)) s
    else s in
  let s2 := addToHistory path s1 in
  let s3 := set_currentIndex (Js.length (_paths s2) - 1) s2 in
  updateNavigationState s3.

(** The callback registered with [location.onUrlChange]. *)
Definition onUrlChange (path : string) (s : Service) : Service :=
  if decide (previousPath s = Some path) then s
  else
    let s1 := set_previousPath (Some path) s in
    if isInternalNavigation s1
    then handleInternalNavigation s1
    else handleExternalNavigation path s1.

(** The [popstate] handler. *)
Definition handleBrowserHistoryChange (s : Service) : Service :=
  let currentPath := currentPath s in
  let pathIndex := Js.indexOf (_paths s) currentPath in
  if negb (pathIndex =? -1)
  then updateNavigationState (set_currentIndex pathIndex s)
  else handleExternalNavigation currentPath s.

(** [initializeWithCurrentRoute]: no [await] inside, it runs to its end
    when the constructor calls it. *)
Definition initializeWithCurrentRoute (s : Service) : Service :=
  let currentPath := currentPath s in
  if negb (Js.includes (_paths s) currentPath)
  then set_isInitialized true
         (updateNavigationState (addToHistory currentPath s))
  else s.

Definition clearHistory (s : Service) : Service :=
  updateNavigationState (set_currentIndex 0 (set_paths [] s)).

Definition getPathAtIndex (index : Z) (s : Service) : option string :=
  Js.get (_paths s) index.

Definition hasPath (path : string) (s : Service) : bool :=
  Js.includes (_paths s) path.

(** The constructor, for a [Location] whose [path()] answers [loc]. *)
Definition new_HistoryService (loc : string) : Service :=
  let s :=
    {| navigationPromise := None;
       isInternalNavigation := false;
       previousPath := None;
       isInitialized := false;
       _paths := [];
       _currentIndex := 0;
       _isNavigating := false;
       navigationState_log := [createInitialState];
       navigationError_log := [];
       location_path := loc |} in
  if autoInitialize config then initializeWithCurrentRoute s else s.

End Methods.

(** ** The asynchronous methods

    An [async] method runs up to its first [await], is suspended there, and
    is resumed with the value the awaited promise settles to.  Each such
    method is given as the pair of functions before and after that
    point. *)

(** What [router.navigateByUrl] settles to. *)
Inductive RouterResult :=
| Resolved (success : bool)
| Rejected (error : string).

(** [`${targetPath}`] where [targetPath] may be [undefined]. *)
Definition show_path (p : option string) : string :=
  match p with
  | Some x => x
  | None => "undefined"
  end.

Section AsyncMethods.

Variable config : HistoryConfig.

(** [performNavigation] up to [await this.router.navigateByUrl(targetPath)];
    the second component is the argument handed to the router. *)
Definition performNavigation_start (index : Z) (s : Service)
    : Service * option string :=
  let s1 := set_isNavigating true s in
  let s2 := set_isInternalNavigation true s1 in
  let s3 := set_currentIndex index s2 in
  let targetPath := Js.get (_paths s3) index in
  (updateNavigationState config s3, targetPath).

(** [performNavigation] from the settling of the router's promise on,
    [finally] block included; the second component is the value the
    method's own promise resolves to. *)
Definition performNavigation_resume (targetPath : option string)
    (r : RouterResult) (s : Service) : Service * bool :=
  let '(s1, ret) :=
    match r with
    | Resolved true => (s, true)
    | Resolved false =>
        let s1 :=
          emitError NAVIGATION_FAILED
            ("Failed to navigate to " ++ show_path targetPath)%string None s in
        (set_isNavigating false (set_isInternalNavigation false s1), false)
    | Rejected error =>
        let s1 :=
          emitError NAVIGATION_FAILED
            ("Navigation error: " ++ error)%string (Some error) s in
        (set_isNavigating false (set_isInternalNavigation false s1), false)
    end in
  (set_navigationPromise None s1, ret).

(** [initialize] up to [await this.router.navigateByUrl(initialPath)]. *)
Definition initialize_start (path : option string) (s : Service)
    : Service * string :=
  let initialPath :=
    Js.or_undefined path
      (Js.or (currentPath config s) (Js.or (defaultRoute config) "/")) in
  let s1 := set_isNavigating true s in
  let s2 := set_isInternalNavigation true s1 in
  (updateNavigationState config s2, initialPath).

(** [initialize] from the settling of the router's promise on. *)
Definition initialize_resume (initialPath : string) (r : RouterResult)
    (s : Service) : Service * bool :=
  match r with
  | Resolved true =>
      let s1 := set_paths [] s in
      let s2 := addToHistory config initialPath s1 in
      let s3 := set_currentIndex 0 s2 in
      let s4 := set_isInitialized true s3 in
      let s5 := updateNavigationState config s4 in
      (set_isNavigating false (set_isInternalNavigation false s5), true)
  | Resolved false =>
      let s1 :=
        emitError INITIALIZATION_FAILED
          ("Failed to navigate to initial path: " ++ initialPath)%string None s in
      (set_isNavigating false (set_isInternalNavigation false s1), false)
  | Rejected error =>
      let s1 :=
        emitError INITIALIZATION_FAILED "Initialization failed" (Some error) s in
      (set_isNavigating false (set_isInternalNavigation false s1), false)
  end.

End AsyncMethods.

(** ** The run-time around the service

    Promises are handles (natural numbers).  A suspended method remembers
    the handle of the promise it will settle ([caller]: the promise the
    public method returned) and what it is waiting for. *)

Inductive Suspended :=
| in_performNavigation (caller self : nat) (targetPath : option string)
    (* at [await this.router.navigateByUrl(targetPath)]; [self] is the
       promise of this [performNavigation], the one stored in
       [navigationPromise] *)
| in_navigateToIndex (caller awaited : nat) (index : Z)
    (* at [await this.navigationPromise] *)
| in_initialize (caller : nat) (initialPath : string)
    (* at [await this.router.navigateByUrl(initialPath)] *).

Record World := {
  service : Service;
  suspended : list Suspended;      (* oldest first *)
  settled : list (nat * bool);     (* promises of public calls and their values *)
  next_handle : nat;
}.

Definition with_service (s : Service) (w : World) : World :=
  {| service := s;
     suspended := suspended w;
     settled := settled w;
     next_handle := next_handle w |}.

Definition suspend (k : Suspended) (w : World) : World :=
  {| service := service w;
     suspended := suspended w ++ [k];
     settled := settled w;
     next_handle := next_handle w |}.

Definition settle (caller : nat) (value : bool) (w : World) : World :=
  {| service := service w;
     suspended := suspended w;
     settled := (caller, value) :: settled w;
     next_handle := next_handle w |}.

Definition with_suspended (l : list Suspended) (w : World) : World :=
  {| service := service w;
     suspended := l;
     settled := settled w;
     next_handle := next_handle w |}.

(** A fresh promise handle. *)
Definition new_promise (w : World) : nat * World :=
  (next_handle w,
   {| service := service w;
      suspended := suspended w;
      settled := settled w;
      next_handle := S (next_handle w) |}).

(** The value a public call's promise has settled to, if it has. *)
Fixpoint settled_value (caller : nat) (l : list (nat * bool)) : option bool :=
  match l with
  | [] => None
  | (c, v) :: rest => if Nat.eqb c caller then Some v else settled_value caller rest
  end.

(** Is the suspended method waiting for the router call with handle [h]?
    A [performNavigation] is named by its own promise, an [initialize] by
    the promise it returned. *)
Definition awaits_router (h : nat) (k : Suspended) : bool :=
  match k with
  | in_performNavigation _ self _ => Nat.eqb self h
  | in_initialize caller _ => Nat.eqb caller h
  | in_navigateToIndex _ _ _ => false
  end.

(** Is the suspended method a [navigateToIndex] waiting for promise [p]? *)
Definition awaits_promise (p : nat) (k : Suspended) : bool :=
  match k with
  | in_navigateToIndex _ awaited _ => Nat.eqb awaited p
  | _ => false
  end.

(** Take the first element that satisfies [f] out of a list. *)
Fixpoint extract {A} (f : A -> bool) (l : list A) : option (A * list A) :=
  match l with
  | [] => None
  | x :: rest =>
      if f x then Some (x, rest)
      else match extract f rest with
           | Some (y, rest') => Some (y, x :: rest')
           | None => None
           end
  end.

Section Runtime.

Variable config : HistoryConfig.

(** [this.navigationPromise = this.performNavigation(index);
     return this.navigationPromise;] *)
Definition call_performNavigation (caller : nat) (index : Z) (w : World)
    : World :=
  let '(self, w1) := new_promise w in
  let '(s1, targetPath) := performNavigation_start config index (service w1) in
  suspend (in_performNavigation caller self targetPath)
    (with_service (set_navigationPromise (Some self) s1) w1).

Definition navigateToIndex (caller : nat) (index : Z) (w : World) : World :=
  let s := service w in
  if (index <? 0) || (Js.length (_paths s) <=? index) then
    let message :=
      ("Invalid navigation index " ++ Js.show index ++ ". Valid range: 0-"
         ++ Js.show (Js.length (_paths s) - 1))%string in
    settle caller false
      (with_service (emitError INVALID_INDEX message None s) w)
  else
    match navigationPromise s with
    | Some p =>
        suspend (in_navigateToIndex caller p index)
          (with_service
             (emitError CONCURRENT_NAVIGATION
                "Navigation already in progress, waiting..." None s) w)
    | None => call_performNavigation caller index w
    end.

Definition goBack (caller : nat) (w : World) : World :=
  let s := service w in
  if negb (canGoBack s) then
    settle caller false
      (with_service
         (emitError INVALID_INDEX
            "Cannot go back, already at the beginning of history" None s) w)
  else navigateToIndex caller (_currentIndex s - 1) w.

Definition goForward (caller : nat) (w : World) : World :=
  let s := service w in
  if negb (canGoForward s) then
    settle caller false
      (with_service
         (emitError INVALID_INDEX
            "Cannot go forward, already at the end of history" None s) w)
  else navigateToIndex caller (_currentIndex s + 1) w.

Definition navigateToPath (path : string) (caller : nat) (w : World) : World :=
  let s := service w in
  let index := Js.indexOf (_paths s) path in
  if index =? -1 then
    settle caller false
      (with_service
         (emitError INVALID_INDEX
            ("Path not found in history: " ++ path)%string None s) w)
  else navigateToIndex caller index w.

Definition initialize (path : option string) (caller : nat) (w : World)
    : World :=
  let '(s1, initialPath) := initialize_start config path (service w) in
  suspend (in_initialize caller initialPath) (with_service s1 w).

Definition reset (caller : nat) (w : World) : World :=
  initialize None caller w.

(** A call of a public [async] method: the promise it returns is new. *)
Definition call (method : nat -> World -> World) (w : World) : World :=
  let '(caller, w1) := new_promise w in method caller w1.

(** The [navigateToIndex] calls waiting for promise [p] go on, in the
    order in which they started to wait, each with the index it was
    called with. *)
Definition resume_waiter (w : World) (k : Suspended) : World :=
  match k with
  | in_navigateToIndex caller _ index => call_performNavigation caller index w
  | _ => w
  end.

Definition resume_waiters (p : nat) (w : World) : World :=
  let waiting := filter (fun k => awaits_promise p k = true) (suspended w) in
  let others := filter (fun k => awaits_promise p k <> true) (suspended w) in
  foldl resume_waiter (with_suspended others w) waiting.

(** The router settles the [navigateByUrl] call with handle [h]. *)
Definition router_settles (h : nat) (r : RouterResult) (w : World) : World :=
  match extract (awaits_router h) (suspended w) with
  | Some (in_performNavigation caller self targetPath, rest) =>
      let '(s1, ret) := performNavigation_resume targetPath r (service w) in
      resume_waiters self
        (settle caller ret (with_suspended rest (with_service s1 w)))
  | Some (in_initialize caller initialPath, rest) =>
      let '(s1, ret) := initialize_resume config initialPath r (service w) in
      settle caller ret (with_suspended rest (with_service s1 w))
  | _ => w
  end.

(** The [Location] moves to [path] and tells its [onUrlChange]
    listeners. *)
Definition location_urlChange (path : string) (w : World) : World :=
  with_service (onUrlChange config path (set_location_path path (service w))) w.

(** The browser moves to [path] and fires [popstate] on the window. *)
Definition window_popstate (path : string) (w : World) : World :=
  with_service
    (handleBrowserHistoryChange config (set_location_path path (service w))) w.

Inductive Event :=
| Call_goBack
| Call_goForward
| Call_navigateToPath (path : string)
| Call_initialize (path : option string)
| Call_reset
| Call_clearHistory
| Location_urlChange (path : string)
| Window_popstate (path : string)
| Router_settles (h : nat) (r : RouterResult).

Definition step (w : World) (e : Event) : World :=
  match e with
  | Call_goBack => call goBack w
  | Call_goForward => call goForward w
  | Call_navigateToPath path => call (navigateToPath path) w
  | Call_initialize path => call (initialize path) w
  | Call_reset => call reset w
  | Call_clearHistory => with_service (clearHistory config (service w)) w
  | Location_urlChange path => location_urlChange path w
  | Window_popstate path => window_popstate path w
  | Router_settles h r => router_settles h r w
  end.

Definition run (w : World) (trace : list Event) : World := foldl step w trace.

(** The world right after the constructor of the service has run. *)
Definition new_World (loc : string) : World :=
  {| service := new_HistoryService config loc;
     suspended := [];
     settled := [];
     next_handle := 0 |}.

Inductive reachable : World -> Prop :=
| reachable_new loc : reachable (new_World loc)
| reachable_step w e : reachable w -> reachable (step w e).

End Runtime.

(** ** Vocabulary of the statements *)

(** The last [m] elements of a list. *)
Definition lastn {A} (m : nat) (l : list A) : list A := drop (length l - m) l.

(** What [handleExternalNavigation] keeps of the stack before it appends. *)
Definition kept_history (s : Service) : list string :=
  if _currentIndex s <? Js.length (_paths s) - 1
  then Js.splice_from (_currentIndex s + 1) (_paths s)
  else _paths s.

(** The cause a failed router call leaves behind: the thrown value, and
    nothing when the promise resolved to [false]. *)
Definition failure_cause (r : RouterResult) : option string :=
  match r with
  | Rejected error => Some error
  | Resolved _ => None
  end.

(** The snapshot [updateNavigationState] pushes. *)
Definition snapshot (config : HistoryConfig) (s : Service) : NavigationState :=
  {| st_paths := _paths s;
     st_currentIndex := _currentIndex s;
     st_canGoBack := canGoBack s;
     st_canGoForward := canGoForward s;
     st_currentPath := currentPath config s;
     st_historyLength := historyLength s;
     st_isNavigating := _isNavigating s |}.

(** The location reports [path] to the listener of the service. *)
Definition notify (config : HistoryConfig) (s : Service) (path : string) : Service :=
  onUrlChange config path (set_location_path path s).

(** No notification repeats the path reported just before it; [previous]
    is the path reported before the first one. *)
Fixpoint no_repeat (previous : option string) (paths : list string) : Prop :=
  match paths with
  | [] => True
  | p :: rest => previous <> Some p /\ no_repeat (Some p) rest
  end.

(** Handles of a suspended method. *)
Definition router_handle (k : Suspended) : option nat :=
  match k with
  | in_performNavigation _ self _ => Some self
  | in_initialize caller _ => Some caller
  | in_navigateToIndex _ _ _ => None
  end.

Definition handles_below (n : nat) (k : Suspended) : Prop :=
  match k with
  | in_performNavigation caller self _ => (caller < n)%nat /\ (self < n)%nat
  | in_navigateToIndex caller awaited index =>
      (caller < n)%nat /\ (awaited < n)%nat /\ 0 <= index
  | in_initialize caller _ => (caller < n)%nat
  end.

(** What holds of every world the run-time can be in: the stack respects
    the bound, the index never drops below [-1], handles are allocated in
    increasing order and name one router call each. *)
Record well_formed (config : HistoryConfig) (w : World) : Prop := {
  wf_length : Js.length (_paths (service w)) <= Z.max 0 (maxHistoryLength config);
  wf_index : -1 <= _currentIndex (service w);
  wf_below : Forall (handles_below (next_handle w)) (suspended w);
  wf_nodup : NoDup (omap router_handle (suspended w));
  wf_promise : forall p, navigationPromise (service w) = Some p ->
                         (p < next_handle w)%nat;
}.

(** The statement of the first testable property: after the notifications
    for [paths] the history has one entry per notification, the index is on
    the last one and the current path is the last path. *)
Definition external_navigations_recorded (config : HistoryConfig) (w : World)
    (paths : list string) : Prop :=
  let s' := service (run config w (map Location_urlChange paths)) in
  let n := Js.length paths in
  historyLength s' = n /\
  _currentIndex s' = n - 1 /\
  Some (currentPath config s') = last paths.

(** A configuration that does not auto-initialize: the service starts with
    an empty stack. *)
Definition manual_config : HistoryConfig :=
  {| maxHistoryLength := 50;
     debugMode := false;
     autoInitialize := false;
     defaultRoute := "/" |}.

(** The invariant of the data model: once the stack is not empty,
    [currentIndex] addresses one of its entries. *)
Definition index_in_range (s : Service) : Prop :=
  _paths s <> [] -> 0 <= _currentIndex s < Js.length (_paths s).

(** The statement that step [e] from world [w] preserves that invariant. *)
Definition index_invariant_preserved (config : HistoryConfig) (w : World)
    (e : Event) : Prop :=
  index_in_range (service w) -> index_in_range (service (step config w e)).

(** The suspended [navigateToIndex] calls that event [e] resumes: those
    waiting for the [performNavigation] whose router call it settles. *)
Definition resumed_by (e : Event) (w : World) : list Suspended :=
  match e with
  | Router_settles h _ =>
      match extract (awaits_router h) (suspended w) with
      | Some (in_performNavigation _ self _, _) =>
          filter (fun k => awaits_promise self k = true) (suspended w)
      | _ => []
      end
  | _ => []
  end.

(** The index a suspended [navigateToIndex] holds still lies in the stack. *)
Definition waiter_in_range (s : Service) (k : Suspended) : Prop :=
  match k with
  | in_navigateToIndex _ _ index => 0 <= index < Js.length (_paths s)
  | _ => True
  end.

(** A world in which a [goForward] waits behind a [goBack] while the stack
    is cleared and refilled with one entry. *)
Definition stale_waiter_world : World :=
  run DEFAULT_HISTORY_CONFIG (new_World DEFAULT_HISTORY_CONFIG "/a")
    [Location_urlChange "/b"; Call_goBack; Call_goForward;
     Call_clearHistory; Window_popstate "/y"].

(** The boolean a navigation resolves to, given what the router did. *)
Definition is_success (r : RouterResult) : bool :=
  match r with
  | Resolved true => true
  | _ => false
  end.

(** Event [e] is a public index-navigation request that, in state [s],
    reaches [navigateToIndex] with [index]. *)
Definition requests_index (e : Event) (s : Service) (index : Z) : Prop :=
  match e with
  | Call_goBack => canGoBack s = true /\ index = _currentIndex s - 1
  | Call_goForward => canGoForward s = true /\ index = _currentIndex s + 1
  | Call_navigateToPath path =>
      Js.indexOf (_paths s) path = index /\ index <> -1
  | _ => False
  end.

(** The navigation whose promise the service holds, with its target. *)
Definition inflight_target (w : World) : option (nat * string) :=
  match navigationPromise (service w) with
  | Some p =>
      match extract (awaits_router p) (suspended w) with
      | Some (in_performNavigation _ _ (Some target), _) => Some (p, target)
      | _ => None
      end
  | None => None
  end.

(** The router carries out the navigation the service holds: the location
    moves to the target, its listeners are told, and the promise of
    [navigateByUrl] resolves to [true].  (The router is outside the
    library; this is the success case of its contract.) *)
Definition navigator_succeeds (config : HistoryConfig) (w : World) : World :=
  match inflight_target w with
  | Some (p, target) =>
      run config w [Location_urlChange target; Router_settles p (Resolved true)]
  | None => w
  end.

(** The statement of the back/forward property at world [w]: when
    [goBack()] has settled successfully, a successful [goForward()] brings
    [currentIndex] and [currentPath] back. *)
Definition back_then_forward_restores (config : HistoryConfig) (w : World) : Prop :=
  let w2 := navigator_succeeds config (step config w Call_goBack) in
  settled_value (next_handle w) (settled w2) = Some true ->
  let w4 := navigator_succeeds config (step config w2 Call_goForward) in
  _currentIndex (service w4) = _currentIndex (service w) /\
  currentPath config (service w4) = currentPath config (service w).

(** The world [stale_waiter_world] once both navigations have settled: the
    index points one past the only entry. *)
Definition index_past_end_world : World :=
  run DEFAULT_HISTORY_CONFIG stale_waiter_world
    [Router_settles 1 (Resolved true); Router_settles 3 (Resolved true)].

(** A world in which a [goBack] has failed: the index moved, the location
    did not. *)
Definition failed_back_world : World :=
  run DEFAULT_HISTORY_CONFIG (new_World DEFAULT_HISTORY_CONFIG "/a")
    [Location_urlChange "/b"; Location_urlChange "/c"; Call_goBack;
     Router_settles 1 (Resolved false)].

(** ** The demo's navigation component

    [Navigation] of the demo application subscribes to both streams of the
    service: it keeps the last state it was sent and the last five
    errors. *)

Record Navigation := {
  nav_navigationState : option NavigationState;
  nav_navigationErrors : list NavigationError;
}.

Definition new_Navigation : Navigation :=
  {| nav_navigationState := None; nav_navigationErrors := [] |}.

(** The [next] handler of the subscription to [navigationState$]. *)
Definition Navigation_on_state (n : Navigation) (state : NavigationState)
    : Navigation :=
  {| nav_navigationState := Some state;
     nav_navigationErrors := nav_navigationErrors n |}.

(** The [next] handler of the subscription to [navigationError$]:
    [[...this.navigationErrors, error].slice(-5)]. *)
Definition Navigation_on_error (n : Navigation) (error : NavigationError)
    : Navigation :=
  {| nav_navigationState := nav_navigationState n;
     nav_navigationErrors :=
       Js.slice_from (-5) (nav_navigationErrors n ++ [error]) |}.

Definition Navigation_clearErrors (n : Navigation) : Navigation :=
  {| nav_navigationState := nav_navigationState n;
     nav_navigationErrors := [] |}.

(** [clearHistory()] of the component: the history of the service and the
    errors of the component. *)
Definition Navigation_clearHistory (config : HistoryConfig)
    (n : Navigation) (s : Service) : Navigation * Service :=
  (Navigation_clearErrors n, clearHistory config s).

(** A snapshot agrees with itself: the length is that of its paths and the
    two flags are what the index and the length give. *)
Definition consistent_state (st : NavigationState) : Prop :=
  st_historyLength st = Js.length (st_paths st) /\
  st_canGoBack st = (0 <? st_currentIndex st) /\
  st_canGoForward st = (st_currentIndex st <? Js.length (st_paths st) - 1) /\
  st_currentPath st <> "".

(** The [performNavigation] calls that the waiters [waiting] start, the
    first one with promise handle [n], on the stack [paths]. *)
Fixpoint started (n : nat) (paths : list string) (waiting : list Suspended)
    : list Suspended :=
  match waiting with
  | [] => []
  | in_navigateToIndex caller _ index :: rest =>
      in_performNavigation caller n (Js.get paths index)
        :: started (S n) paths rest
  | _ :: rest => started n paths rest
  end.

(** ** The earlier, synchronous version of the service

    The repository also holds the version of [HistoryService] that came
    before the bounded one: [goBack] and [goForward] answer with a boolean
    at once, the router is called without being awaited (a [catch] handler
    runs when its promise is rejected), and there is no bound, no error
    stream and no [popstate] listener. *)

Module Legacy.

Record NavigationState := {
  st_paths : list string;
  st_currentIndex : Z;
  st_canGoBack : bool;
  st_canGoForward : bool;
  st_currentPath : string;
}.

Record Service := {
  isInternalNavigation : bool;
  previousPath : option string;
  _paths : list string;
  _currentIndex : Z;
  navigationState_log : list NavigationState;   (* newest first *)
  location_path : string;
}.

Definition canGoBack (s : Service) : bool := 0 <? _currentIndex s.

Definition canGoForward (s : Service) : bool :=
  _currentIndex s <? Js.length (_paths s) - 1.

Definition currentPath (s : Service) : string := Js.or (location_path s) "/".

Definition historyLength (s : Service) : Z := Js.length (_paths s).

Definition createInitialState : NavigationState :=
  {| st_paths := [];
     st_currentIndex := 0;
     st_canGoBack := false;
     st_canGoForward := false;
     st_currentPath := "/" |}.

Definition updateNavigationState (s : Service) : Service :=
  {| isInternalNavigation := isInternalNavigation s;
     previousPath := previousPath s;
     _paths := _paths s;
     _currentIndex := _currentIndex s;
     navigationState_log :=
       {| st_paths := _paths s;
          st_currentIndex := _currentIndex s;
          st_canGoBack := canGoBack s;
          st_canGoForward := canGoForward s;
          st_currentPath := currentPath s |} :: navigationState_log s;
     location_path := location_path s |}.

Definition set_isInternalNavigation (v : bool) (s : Service) : Service :=
  {| isInternalNavigation := v;
     previousPath := previousPath s;
     _paths := _paths s;
     _currentIndex := _currentIndex s;
     navigationState_log := navigationState_log s;
     location_path := location_path s |}.

Definition set_previousPath (v : option string) (s : Service) : Service :=
  {| isInternalNavigation := isInternalNavigation s;
     previousPath := v;
     _paths := _paths s;
     _currentIndex := _currentIndex s;
     navigationState_log := navigationState_log s;
     location_path := location_path s |}.

Definition set_paths (v : list string) (s : Service) : Service :=
  {| isInternalNavigation := isInternalNavigation s;
     previousPath := previousPath s;
     _paths := v;
     _currentIndex := _currentIndex s;
     navigationState_log := navigationState_log s;
     location_path := location_path s |}.

Definition set_currentIndex (v : Z) (s : Service) : Service :=
  {| isInternalNavigation := isInternalNavigation s;
     previousPath := previousPath s;
     _paths := _paths s;
     _currentIndex := v;
     navigationState_log := navigationState_log s;
     location_path := location_path s |}.

Definition set_location_path (v : string) (s : Service) : Service :=
  {| isInternalNavigation := isInternalNavigation s;
     previousPath := previousPath s;
     _paths := _paths s;
     _currentIndex := _currentIndex s;
     navigationState_log := navigationState_log s;
     location_path := v |}.

Definition new_HistoryService (loc : string) : Service :=
  {| isInternalNavigation := false;
     previousPath := None;
     _paths := [];
     _currentIndex := 0;
     navigationState_log := [createInitialState];
     location_path := loc |}.

Definition handleInternalNavigation (s : Service) : Service :=
  updateNavigationState (set_isInternalNavigation false s).

Definition handleExternalNavigation (path : string) (s : Service) : Service :=
  let s1 :=
    if _currentIndex s <? Js.length (_paths s) - 1
    then set_paths (Js.splice_from (_currentIndex s + 1) (_paths s)) s
    else s in
  let s2 := set_paths (_paths s1 ++ [path]) s1 in
  let s3 := set_currentIndex (Js.length (_paths s2) - 1) s2 in
  updateNavigationState s3.

Definition onUrlChange (path : string) (s : Service) : Service :=
  if decide (previousPath s = Some path) then s
  else
    let s1 := set_previousPath (Some path) s in
    if isInternalNavigation s1
    then handleInternalNavigation s1
    else handleExternalNavigation path s1.

(** The location moves to [path] and tells the listener. *)
Definition notify (s : Service) (path : string) : Service :=
  onUrlChange path (set_location_path path s).

(** [navigateToIndex]: the answer, and the argument of the router call it
    made, if it made one. *)
Definition navigateToIndex (index : Z) (s : Service)
    : Service * bool * option (option string) :=
  if (index <? 0) || (Js.length (_paths s) <=? index) then (s, false, None)
  else
    let s1 := set_isInternalNavigation true s in
    let s2 := set_currentIndex index s1 in
    let targetPath := Js.get (_paths s2) index in
    (s2, true, Some targetPath).


Definition goBack (s : Service) : Service * bool * option (option string) :=
  if negb (canGoBack s) then (s, false, None)
  else navigateToIndex (_currentIndex s - 1) s.

Definition goForward (s : Service) : Service * bool * option (option string) :=
  if negb (canGoForward s) then (s, false, None)
  else navigateToIndex (_currentIndex s + 1) s.

(** [initialize] up to its [await]. *)
Definition initialize_start (path : option string) (s : Service)
    : Service * string :=
  let initialPath := Js.or_undefined path "/home" in
  (set_isInternalNavigation true s, initialPath).

(** [initialize] from the settling of the router's promise on. *)
Definition initialize_resume (initialPath : string) (r : RouterResult)
    (s : Service) : Service * bool :=
  match r with
  | Resolved success =>
      let s1 :=
        if success then
          updateNavigationState
            (set_currentIndex 0 (set_paths ([] ++ [initialPath]) (set_paths [] s)))
        else s in
      (set_isInternalNavigation false s1, success)
  | Rejected _ => (set_isInternalNavigation false s, false)
  end.

Definition clearHistory (s : Service) : Service :=
  updateNavigationState (set_currentIndex 0 (set_paths [] s)).

Definition getPathAtIndex (index : Z) (s : Service) : option string :=
  Js.get (_paths s) index.

Definition hasPath (path : string) (s : Service) : bool :=
  Js.includes (_paths s) path.

End Legacy.

(** A world with an empty stack and nothing in flight in which
    [isInternalNavigation] is still set: the echo of a [goBack] repeated
    the path reported before it and was dropped by the listener, the
    router resolved to [true], and the history was cleared. *)
Definition stuck_flag_world : World :=
  run DEFAULT_HISTORY_CONFIG (new_World DEFAULT_HISTORY_CONFIG "/a")
    [Location_urlChange "/a"; Call_goBack; Location_urlChange "/a";
     Router_settles 1 (Resolved true); Call_clearHistory].






(** * Properties *)

Local Open Scope list_scope.

(** ** Arrays *)

Lemma or_nonempty a b : a <> "" -> Js.or a b = a.
Proof.
  intros Ha. unfold Js.or.
  destruct (String.eqb_spec a ""); [contradiction | reflexivity].
Qed.

Lemma or_empty b : Js.or "" b = b.
Proof. reflexivity. Qed.

Lemma or_default_nonempty a : Js.or a "/" <> "".
Proof.
  unfold Js.or. destruct (String.eqb_spec a ""); [discriminate | assumption].
Qed.

Lemma length_nonneg {A} (arr : list A) : 0 <= Js.length arr.
Proof. unfold Js.length. lia. Qed.

Lemma indexOf_range arr x :
  Js.indexOf arr x = -1 \/ 0 <= Js.indexOf arr x < Js.length arr.
Proof.
  unfold Js.length. induction arr as [|y rest IH]; simpl; [left; reflexivity|].
  destruct (String.eqb y x); [right; lia|].
  destruct IH as [IH|IH].
  - rewrite IH. left. reflexivity.
  - right. destruct (Z.ltb_spec (Js.indexOf rest x) 0); lia.
Qed.

(** [indexOf] answers [-1] exactly when the element does not occur. *)
Lemma indexOf_absent arr x : Js.indexOf arr x = -1 <-> x ∉ arr.
Proof.
  induction arr as [|y rest IH]; simpl.
  - split; [intros _; apply not_elem_of_nil | reflexivity].
  - destruct (String.eqb_spec y x) as [->|Hne].
    + split; [lia | intros H; exfalso; apply H; left].
    + rewrite not_elem_of_cons.
      destruct (indexOf_range rest x) as [Hr|Hr].
      * rewrite Hr. simpl. split; [|reflexivity].
        intros _. split; [congruence | apply IH, Hr].
      * destruct (Z.ltb_spec (Js.indexOf rest x) 0); [lia|].
        split; [lia|]. intros [_ Hn]. apply IH in Hn. lia.
Qed.

(** When the element occurs, [indexOf] answers its first position. *)
Lemma indexOf_first arr x :
  x ∈ arr ->
  0 <= Js.indexOf arr x < Js.length arr /\
  arr !! Z.to_nat (Js.indexOf arr x) = Some x /\
  forall j : nat, (j < Z.to_nat (Js.indexOf arr x))%nat -> arr !! j <> Some x.
Proof.
  unfold Js.length. induction arr as [|y rest IH]; intros Hin.
  - exfalso. eapply not_elem_of_nil, Hin.
  - simpl. destruct (String.eqb_spec y x) as [->|Hne].
    + simpl. split; [lia|]. split; [reflexivity|]. intros j Hj. lia.
    + apply elem_of_cons in Hin as [->|Hin]; [congruence|].
      destruct (IH Hin) as (Hr & Hl & Hf).
      destruct (Z.ltb_spec (Js.indexOf rest x) 0); [lia|].
      split; [lia|]. split.
      * replace (Z.to_nat (Js.indexOf rest x + 1))
          with (S (Z.to_nat (Js.indexOf rest x))) by lia.
        exact Hl.
      * intros [|j] Hj; simpl; [congruence|]. apply Hf. lia.
Qed.

Lemma includes_elem_of arr x : Js.includes arr x = true <-> x ∈ arr.
Proof.
  induction arr as [|y rest IH]; simpl.
  - split; [discriminate | intros H; exfalso; eapply not_elem_of_nil, H].
  - rewrite elem_of_cons, orb_true_iff, IH.
    destruct (String.eqb_spec y x); split; intros [H|H]; auto; congruence.
Qed.

Lemma lastn_all {A} (m : nat) (l : list A) : (length l <= m)%nat -> lastn m l = l.
Proof. intros H. unfold lastn. replace (length l - m)%nat with 0%nat by lia. reflexivity. Qed.

Lemma lastn_length {A} (m : nat) (l : list A) :
  (m <= length l)%nat -> length (lastn m l) = m.
Proof. intros H. unfold lastn. rewrite length_drop. lia. Qed.

Lemma lastn_snoc {A} (m : nat) (l : list A) x :
  lastn m (lastn m l ++ [x]) = lastn m (l ++ [x]).
Proof.
  destruct (Nat.le_gt_cases (length l) m) as [Hle|Hgt].
  - rewrite (lastn_all m l Hle). reflexivity.
  - unfold lastn at 1 3. rewrite !length_app, lastn_length by lia. simpl.
    unfold lastn. rewrite !drop_app, !length_drop.
    replace (m + 1 - m)%nat with 1%nat by lia.
    replace (1 - (length l - (length l - m)))%nat with (1 - m)%nat by lia.
    replace (length l + 1 - m - length l)%nat with (1 - m)%nat by lia.
    rewrite drop_drop. simpl.
    replace (length l - m + 1)%nat with (length l + 1 - m)%nat by lia.
    reflexivity.
Qed.

Lemma lastn_app {A} (m : nat) (a b : list A) :
  lastn m (lastn m a ++ b) = lastn m (a ++ b).
Proof.
  induction b as [|x b IH] using rev_ind.
  - rewrite !app_nil_r. apply lastn_all. unfold lastn. rewrite length_drop. lia.
  - rewrite !app_assoc. rewrite <- lastn_snoc, IH, lastn_snoc. reflexivity.
Qed.


(** ** The synchronous methods *)

Lemma splice_front_lastn {A} (arr : list A) (m : Z) :
  0 <= m -> m < Js.length arr ->
  Js.splice_front (Js.length arr - m) arr = lastn (Z.to_nat m) arr.
Proof.
  unfold Js.splice_front, Js.length, lastn. intros H0 Hm. f_equal. lia.
Qed.

Lemma addToHistory_paths config path s :
  0 <= maxHistoryLength config ->
  _paths (addToHistory config path s)
  = lastn (Z.to_nat (maxHistoryLength config)) (_paths s ++ [path]).
Proof.
  intros Hmax. unfold addToHistory. cbn [_paths set_paths].
  destruct (Z.ltb_spec (maxHistoryLength config) (Js.length (_paths s ++ [path]))).
  - cbn. apply splice_front_lastn; assumption.
  - cbn. symmetry. apply lastn_all. unfold Js.length in *. lia.
Qed.

Lemma addToHistory_currentIndex config path s :
  _currentIndex (addToHistory config path s)
  = if maxHistoryLength config <? Js.length (_paths s) + 1
    then Z.max 0 (_currentIndex s - (Js.length (_paths s) + 1 - maxHistoryLength config))
    else _currentIndex s.
Proof.
  unfold addToHistory. cbn [_paths set_paths].
  replace (Js.length (_paths s ++ [path])) with (Js.length (_paths s) + 1)
    by (unfold Js.length; rewrite length_app; simpl; lia).
  destruct (_ <? _); reflexivity.
Qed.

(** [addToHistory] touches the stack and the index only. *)
Lemma addToHistory_frame config path s :
  let s' := addToHistory config path s in
  navigationPromise s' = navigationPromise s /\
  isInternalNavigation s' = isInternalNavigation s /\
  previousPath s' = previousPath s /\
  isInitialized s' = isInitialized s /\
  _isNavigating s' = _isNavigating s /\
  navigationState_log s' = navigationState_log s /\
  navigationError_log s' = navigationError_log s /\
  location_path s' = location_path s.
Proof.
  unfold addToHistory. cbn [_paths set_paths].
  destruct (_ <? _); cbn; repeat split; reflexivity.
Qed.

Lemma handleExternalNavigation_paths config path s :
  0 <= maxHistoryLength config ->
  _paths (handleExternalNavigation config path s)
  = lastn (Z.to_nat (maxHistoryLength config)) (kept_history s ++ [path]).
Proof.
  intros Hmax. unfold handleExternalNavigation, kept_history.
  unfold updateNavigationState, push_navigationState. cbn [_paths set_currentIndex].
  rewrite addToHistory_paths by assumption.
  destruct (_ <? _); reflexivity.
Qed.

Lemma handleExternalNavigation_currentIndex config path s :
  _currentIndex (handleExternalNavigation config path s)
  = Js.length (_paths (handleExternalNavigation config path s)) - 1.
Proof. reflexivity. Qed.

Lemma handleExternalNavigation_frame config path s :
  let s' := handleExternalNavigation config path s in
  navigationPromise s' = navigationPromise s /\
  isInternalNavigation s' = isInternalNavigation s /\
  previousPath s' = previousPath s /\
  isInitialized s' = isInitialized s /\
  _isNavigating s' = _isNavigating s /\
  navigationError_log s' = navigationError_log s /\
  location_path s' = location_path s.
Proof.
  unfold handleExternalNavigation.
  unfold updateNavigationState, push_navigationState, set_currentIndex.
  cbn -[addToHistory].
  match goal with
  | |- context [addToHistory config path ?x] =>
      pose proof (addToHistory_frame config path x) as H
  end.
  cbn -[addToHistory] in H.
  destruct H as (H1 & H2 & H3 & H4 & H5 & _ & H7 & H8).
  rewrite H1, H2, H3, H4, H5, H7, H8.
  destruct (_ <? _); cbn; repeat split; reflexivity.
Qed.

(** ** goBack at the beginning of the history *)

(** C9: in a state where [canGoBack] is false, [goBack()] resolves to
    [false], emits one [INVALID_INDEX] error and changes nothing else:
    the stack, the index, the navigation flags, the stored promise and the
    suspended methods are what they were. *)
Theorem goBack_at_beginning_is_rejected config w :
  canGoBack (service w) = false ->
  let w' := step config w Call_goBack in
  settled_value (next_handle w) (settled w') = Some false /\
  service w'
  = push_navigationError
      {| type := INVALID_INDEX;
         message := "Cannot go back, already at the beginning of history";
         originalError := None |} (service w) /\
  _paths (service w') = _paths (service w) /\
  _currentIndex (service w') = _currentIndex (service w) /\
  _isNavigating (service w') = _isNavigating (service w) /\
  isInternalNavigation (service w') = isInternalNavigation (service w) /\
  navigationPromise (service w') = navigationPromise (service w) /\
  navigationState_log (service w') = navigationState_log (service w) /\
  suspended w' = suspended w.
Proof.
  intros Hback. cbn. unfold call, goBack. cbn. rewrite Hback. cbn.
  rewrite Nat.eqb_refl. repeat split; reflexivity.
Qed.

Lemma goBack_at_beginning_is_rejected_witness :
  let w := new_World DEFAULT_HISTORY_CONFIG "/home" in
  settled_value 0 (settled (step DEFAULT_HISTORY_CONFIG w Call_goBack)) = Some false /\
  _paths (service (step DEFAULT_HISTORY_CONFIG w Call_goBack)) = ["/home"].
Proof.
  pose proof (goBack_at_beginning_is_rejected DEFAULT_HISTORY_CONFIG
                (new_World DEFAULT_HISTORY_CONFIG "/home") eq_refl) as H.
  cbv zeta in H. destruct H as (H1 & _ & H2 & _).
  split; [exact H1 | exact H2].
Defined.

(** ** The popstate handler *)

(** C10: when the path observed at a [popstate] already occurs in the
    stack, the handler moves [currentIndex] to the first position of that
    path and leaves the stack, its length and the navigation flags alone;
    when the path does not occur, the change is handled as an external
    navigation. *)
Theorem popstate_syncs_with_known_path config s :
  let observed := currentPath config s in
  let s' := handleBrowserHistoryChange config s in
  (observed ∈ _paths s ->
     _paths s !! Z.to_nat (_currentIndex s') = Some observed /\
     (forall j : nat, (j < Z.to_nat (_currentIndex s'))%nat ->
                      _paths s !! j <> Some observed) /\
     0 <= _currentIndex s' < Js.length (_paths s) /\
     _currentIndex s' = Js.indexOf (_paths s) observed /\
     _paths s' = _paths s /\
     historyLength s' = historyLength s /\
     _isNavigating s' = _isNavigating s /\
     isInternalNavigation s' = isInternalNavigation s /\
     navigationPromise s' = navigationPromise s) /\
  (observed ∉ _paths s -> s' = handleExternalNavigation config observed s).
Proof.
  intros observed s'. subst s'. unfold handleBrowserHistoryChange.
  fold observed. split.
  - intros Hin. destruct (indexOf_first _ _ Hin) as (Hr & Hl & Hf).
    destruct (Z.eqb_spec (Js.indexOf (_paths s) observed) (-1)) as [E|E]; [lia|].
    cbn. repeat split; auto; lia.
  - intros Hout. apply indexOf_absent in Hout. rewrite Hout. reflexivity.
Qed.

Lemma popstate_syncs_with_known_path_witness :
  let s := service (run DEFAULT_HISTORY_CONFIG (new_World DEFAULT_HISTORY_CONFIG "/a")
                      [Location_urlChange "/b"; Location_urlChange "/c"]) in
  let s' := handleBrowserHistoryChange DEFAULT_HISTORY_CONFIG (set_location_path "/b" s) in
  _paths s' = ["/a"; "/b"; "/c"] /\ _currentIndex s' = 1.
Proof.
  intros s s'.
  destruct (popstate_syncs_with_known_path DEFAULT_HISTORY_CONFIG
              (set_location_path "/b" s)) as [H _].
  destruct H as (_ & _ & _ & Hi & Hp & _).
  - apply (proj2 (list_elem_of_In _ _)). vm_compute. tauto.
  - split; [exact Hp | exact Hi].
Defined.

(** ** Failure of the router during an index navigation *)

(** C6: when the router call of [performNavigation] resolves to [false] or
    throws, a [NAVIGATION_FAILED] error carrying the cause is emitted, both
    navigation flags are cleared and the method returns [false]; the index
    written before the router was called stays, and the stack is not
    touched.  The second half says the same for whatever state the service
    is in when the router settles. *)
Theorem failed_navigation_keeps_the_new_index config index s r :
  r <> Resolved true ->
  let started := performNavigation_start config index s in
  let finished := performNavigation_resume started.2 r started.1 in
  (finished.2 = false /\
   (exists msg,
      navigationError_log finished.1
      = {| type := NAVIGATION_FAILED; message := msg;
           originalError := failure_cause r |} :: navigationError_log s) /\
   _isNavigating finished.1 = false /\
   isInternalNavigation finished.1 = false /\
   _currentIndex finished.1 = index /\
   _paths finished.1 = _paths s) /\
  (forall later,
     let finished := performNavigation_resume started.2 r later in
     finished.2 = false /\
     (exists msg,
        navigationError_log finished.1
        = {| type := NAVIGATION_FAILED; message := msg;
             originalError := failure_cause r |} :: navigationError_log later) /\
     _isNavigating finished.1 = false /\
     isInternalNavigation finished.1 = false /\
     _currentIndex finished.1 = _currentIndex later /\
     _paths finished.1 = _paths later).
Proof.
  intros Hr. cbn. split; [|intros later];
    destruct r as [[|]|error]; try congruence; cbn;
    repeat split; eauto.
Qed.

Lemma failed_navigation_keeps_the_new_index_witness :
  let s := service (run DEFAULT_HISTORY_CONFIG (new_World DEFAULT_HISTORY_CONFIG "/a")
                      [Location_urlChange "/b"; Location_urlChange "/c"]) in
  let started := performNavigation_start DEFAULT_HISTORY_CONFIG 1 s in
  let finished := performNavigation_resume started.2 (Resolved false) started.1 in
  finished.2 = false /\ _currentIndex s = 2 /\ _currentIndex finished.1 = 1.
Proof.
  intros s started finished.
  destruct (failed_navigation_keeps_the_new_index DEFAULT_HISTORY_CONFIG 1 s
              (Resolved false)) as [(H1 & _ & _ & _ & H2 & _) _].
  - discriminate.
  - split; [exact H1 | split; [reflexivity | exact H2]].
Defined.

(** ** initialize *)

(** C7: [initialize(path?)] picks the argument, else the observed location,
    else the default route (as everywhere in the service, an empty string
    counts as absent and the default route is [config.defaultRoute || '/']),
    sets both navigation flags and calls the router with that path.  When the router succeeds the stack becomes the
    single resolved path, with [currentIndex = 0], no way back or forward,
    and the service marked initialized.  When the router fails, an
    [INITIALIZATION_FAILED] error is emitted, the call returns [false] and
    the stack and index are untouched. *)
Theorem initialize_resets_or_leaves_history config path s :
  0 < maxHistoryLength config ->
  let started := initialize_start config path s in
  let initialPath := started.2 in
  ((forall p, path = Some p -> p <> "" -> initialPath = p) /\
   (path = None \/ path = Some "" ->
    location_path s <> "" -> initialPath = location_path s) /\
   (path = None \/ path = Some "" ->
    location_path s = "" ->
    initialPath = Js.or (defaultRoute config) "/")) /\
  (_isNavigating started.1 = true /\
   isInternalNavigation started.1 = true /\
   _paths started.1 = _paths s /\
   _currentIndex started.1 = _currentIndex s /\
   forall caller w, service w = s ->
     suspended (initialize config path caller w)
     = (suspended w ++ [in_initialize caller initialPath])%list) /\
  (forall later,
     let finished := initialize_resume config initialPath (Resolved true) later in
     finished.2 = true /\
     _paths finished.1 = [initialPath] /\
     _currentIndex finished.1 = 0 /\
     canGoBack finished.1 = false /\
     canGoForward finished.1 = false /\
     isInitialized finished.1 = true) /\
  (forall later r, r <> Resolved true ->
     let finished := initialize_resume config initialPath r later in
     finished.2 = false /\
     (exists msg,
        navigationError_log finished.1
        = {| type := INITIALIZATION_FAILED; message := msg;
             originalError := failure_cause r |} :: navigationError_log later) /\
     _paths finished.1 = _paths later /\
     _currentIndex finished.1 = _currentIndex later).
Proof.
  intros Hmax started initialPath. split; [|split; [|split]].
  - subst initialPath started. cbn. unfold currentPath. repeat split.
    + intros p -> Hp. cbn. apply or_nonempty, Hp.
    + intros [->| ->] Hloc; cbn;
        rewrite (or_nonempty (location_path s)) by assumption;
        apply or_nonempty; assumption.
    + intros [->| ->] Hloc; cbn; rewrite Hloc, !or_empty;
        apply or_nonempty, or_default_nonempty.
  - subst initialPath started. cbn. repeat split.
    intros caller w <-. reflexivity.
  - clearbody initialPath. intros later.
    assert (Hp : _paths (addToHistory config initialPath (set_paths [] later))
                 = [initialPath]).
    { rewrite addToHistory_paths by lia. cbn [_paths set_paths app].
      apply lastn_all. simpl. lia. }
    unfold canGoBack, canGoForward. cbn -[addToHistory]. rewrite Hp.
    repeat split.
  - clearbody initialPath. intros later r Hr. destruct r as [[|]|error]; try congruence; cbn;
      repeat split; eauto.
Qed.

Lemma initialize_resets_or_leaves_history_witness :
  let s := service (run DEFAULT_HISTORY_CONFIG (new_World DEFAULT_HISTORY_CONFIG "/a")
                      [Location_urlChange "/b"; Location_urlChange "/c"]) in
  let started := initialize_start DEFAULT_HISTORY_CONFIG (Some "/x") s in
  let finished := initialize_resume DEFAULT_HISTORY_CONFIG started.2 (Resolved true) started.1 in
  started.2 = "/x" /\ _paths finished.1 = ["/x"] /\ _currentIndex finished.1 = 0.
Proof.
  intros s started finished.
  assert (Hmax : 0 < maxHistoryLength DEFAULT_HISTORY_CONFIG) by (cbn; lia).
  destruct (initialize_resets_or_leaves_history DEFAULT_HISTORY_CONFIG (Some "/x") s Hmax)
    as ((H1 & _) & _ & H3 & _).
  destruct (H3 started.1) as (_ & Hp & Hi & _).
  split; [apply (H1 "/x"); [reflexivity | discriminate] |].
  split; [exact Hp | exact Hi].
Defined.

(** ** Sequences of external notifications *)

Lemma updateNavigationState_snapshot config s :
  updateNavigationState config s = push_navigationState (snapshot config s) s.
Proof. reflexivity. Qed.

Lemma handleExternalNavigation_currentState config path s :
  currentState (handleExternalNavigation config path s)
  = Some (snapshot config (handleExternalNavigation config path s)).
Proof. reflexivity. Qed.

Lemma kept_history_at_end s :
  _currentIndex s = Js.length (_paths s) - 1 -> kept_history s = _paths s.
Proof.
  intros H. unfold kept_history.
  destruct (Z.ltb_spec (_currentIndex s) (Js.length (_paths s) - 1)); [lia | reflexivity].
Qed.

Lemma notify_external config s path :
  isInternalNavigation s = false ->
  previousPath s <> Some path ->
  notify config s path
  = handleExternalNavigation config path
      (set_previousPath (Some path) (set_location_path path s)).
Proof.
  intros Hflag Hprev. unfold notify, onUrlChange.
  cbn [previousPath set_location_path].
  destruct (decide (previousPath s = Some path)) as [E|_]; [contradiction|].
  cbn [isInternalNavigation set_previousPath set_location_path].
  rewrite Hflag. reflexivity.
Qed.

Lemma notify_repeated config s path :
  previousPath s = Some path ->
  notify config s path = set_location_path path s.
Proof.
  intros Hprev. unfold notify, onUrlChange.
  cbn [previousPath set_location_path].
  destruct (decide (previousPath s = Some path)) as [_|E]; [reflexivity | contradiction].
Qed.

Lemma run_urlChanges config w paths :
  service (run config w (map Location_urlChange paths))
  = foldl (notify config) (service w) paths.
Proof.
  revert w. induction paths as [|p rest IH]; intros w; [reflexivity|].
  cbn [map]. unfold run in *. cbn [foldl]. rewrite IH. reflexivity.
Qed.

Lemma notify_external_facts config s path :
  0 <= maxHistoryLength config ->
  isInternalNavigation s = false ->
  previousPath s <> Some path ->
  let s' := notify config s path in
  _paths s'
  = lastn (Z.to_nat (maxHistoryLength config)) (kept_history s ++ [path]) /\
  _currentIndex s' = Js.length (_paths s') - 1 /\
  isInternalNavigation s' = false /\
  previousPath s' = Some path /\
  location_path s' = path /\
  currentState s' = Some (snapshot config s').
Proof.
  intros Hmax Hflag Hprev s'. subst s'.
  rewrite notify_external by assumption.
  pose proof (handleExternalNavigation_frame config path
                (set_previousPath (Some path) (set_location_path path s))) as F.
  cbv zeta in F. destruct F as (_ & F2 & F3 & _ & _ & _ & F7).
  split; [rewrite handleExternalNavigation_paths by assumption; reflexivity|].
  split; [reflexivity|].
  split; [rewrite F2; exact Hflag|].
  split; [rewrite F3; reflexivity|].
  split; [rewrite F7; reflexivity | reflexivity].
Qed.

(** A run of external notifications, none repeating its predecessor,
    appends every path to what the first one kept, within the bound. *)
Lemma notify_sequence config :
  0 <= maxHistoryLength config ->
  forall rest path s,
    isInternalNavigation s = false ->
    no_repeat (previousPath s) (path :: rest) ->
    let s' := foldl (notify config) s (path :: rest) in
    _paths s'
    = lastn (Z.to_nat (maxHistoryLength config)) (kept_history s ++ path :: rest) /\
    _currentIndex s' = Js.length (_paths s') - 1 /\
    isInternalNavigation s' = false /\
    Some (location_path s') = last (path :: rest) /\
    currentState s' = Some (snapshot config s').
Proof.
  intros Hmax. induction rest as [|next rest IH]; intros path s Hflag [Hprev Hrest].
  - cbn [foldl].
    destruct (notify_external_facts config s path Hmax Hflag Hprev)
      as (Hp & Hi & Hf & _ & Hl & Hc).
    repeat split; auto. rewrite Hl. reflexivity.
  - cbn [foldl]. cbn [foldl] in IH.
    destruct (notify_external_facts config s path Hmax Hflag Hprev)
      as (P1 & I1 & F1 & R1 & _).
    set (s1 := notify config s path) in *.
    destruct (IH next s1) as (Hp & Hi & Hf & Hl & Hc).
    + exact F1.
    + rewrite R1. exact Hrest.
    + repeat split; auto.
      rewrite Hp, (kept_history_at_end s1 I1), P1, lastn_app. f_equal.
      rewrite <- app_assoc. reflexivity.
Qed.


Lemma run_reachable config w trace :
  reachable config w -> reachable config (run config w trace).
Proof.
  revert w. induction trace as [|e trace IH]; intros w Hr; [exact Hr|].
  unfold run. cbn [foldl]. apply IH, reachable_step, Hr.
Qed.

(** C1, as stated, fails: the listener drops a notification that repeats
    the path of the one before it, so two notifications for ["/a"] on an
    empty stack leave one entry; [currentPath] is read from the location
    with the default route as fallback, so after a notification for the
    empty path it is ["/"]; and in [stuck_flag_world], where the stack is
    empty and nothing is in flight but [isInternalNavigation] is still set,
    the first notification is taken as an echo, so ["/x"; "/y"] leaves one
    entry. *)
Lemma repeated_notification_is_not_recorded :
  let w := new_World manual_config "" in
  _paths (service w) = [] /\
  isInternalNavigation (service w) = false /\
  (Js.length ["/a"; "/a"] <= maxHistoryLength manual_config /\
   ~ external_navigations_recorded manual_config w ["/a"; "/a"]) /\
  (Js.length [""] <= maxHistoryLength manual_config /\
   ~ external_navigations_recorded manual_config w [""]) /\
  (reachable DEFAULT_HISTORY_CONFIG stuck_flag_world /\
   _paths (service stuck_flag_world) = [] /\
   suspended stuck_flag_world = [] /\
   navigationPromise (service stuck_flag_world) = None /\
   isInternalNavigation (service stuck_flag_world) = true /\
   Js.length ["/x"; "/y"] <= maxHistoryLength DEFAULT_HISTORY_CONFIG /\
   ~ external_navigations_recorded DEFAULT_HISTORY_CONFIG stuck_flag_world
       ["/x"; "/y"]).
Proof.
  cbv zeta. split; [reflexivity|]. split; [reflexivity|].
  split; [|split]; try (split; [unfold Js.length; simpl; lia|]).
  - intros (H & _). vm_compute in H. discriminate.
  - intros (_ & _ & H). vm_compute in H. discriminate.
  - split; [apply run_reachable, reachable_new|].
    split; [reflexivity|]. split; [reflexivity|]. split; [reflexivity|].
    split; [reflexivity|]. split; [unfold Js.length; simpl; lia|].
    intros (H & _). vm_compute in H. discriminate.
Qed.

(** C1, amended: for notifications [p1 .. pn] that arrive while
    [isInternalNavigation] is not set, with [1 <= n <= maxHistoryLength],
    none repeating the path reported just before it ([p1] not repeating
    [previousPath]) and the last one not empty, starting from an empty
    stack: afterwards [historyLength = n], [currentIndex = n - 1] and
    [currentPath = pn]; the stack is exactly [p1 .. pn] and the emitted
    state is the snapshot of that. *)
Theorem distinct_external_navigations_are_recorded config w paths :
  _paths (service w) = [] ->
  isInternalNavigation (service w) = false ->
  1 <= Js.length paths <= maxHistoryLength config ->
  no_repeat (previousPath (service w)) paths ->
  last paths <> Some "" ->
  let s' := service (run config w (map Location_urlChange paths)) in
  external_navigations_recorded config w paths /\
  _paths s' = paths /\
  getPathAtIndex (_currentIndex s') s' = last paths /\
  currentState s' = Some (snapshot config s').
Proof.
  intros Hempty Hflag [Hn Hmax] Hrep Hlast s'.
  unfold external_navigations_recorded. fold s'.
  subst s'. rewrite run_urlChanges.
  destruct paths as [|path rest]; [unfold Js.length in Hn; simpl in Hn; lia|].
  destruct (notify_sequence config ltac:(lia) rest path (service w) Hflag Hrep)
    as (Hp & Hi & _ & Hl & Hc).
  set (s' := foldl (notify config) (service w) (path :: rest)) in *.
  assert (Hk : kept_history (service w) = []).
  { unfold kept_history. rewrite Hempty.
    destruct (_ <? _); [apply take_nil | reflexivity]. }
  rewrite Hk in Hp. cbn [app] in Hp.
  rewrite lastn_all in Hp by (unfold Js.length in *; lia).
  assert (Hloc : location_path s' <> "").
  { intros E. apply Hlast. rewrite <- Hl, E. reflexivity. }
  repeat split.
  - unfold historyLength. rewrite Hp. reflexivity.
  - rewrite Hi, Hp. reflexivity.
  - unfold currentPath. rewrite or_nonempty by assumption. exact Hl.
  - exact Hp.
  - unfold getPathAtIndex, Js.get. rewrite Hi, Hp.
    destruct (Z.ltb_spec (Js.length (path :: rest) - 1) 0); [lia|].
    rewrite last_lookup. unfold Js.length. f_equal.
    cbn [length]. lia.
  - exact Hc.
Qed.

Lemma distinct_external_navigations_are_recorded_witness :
  let s' := service (run manual_config (new_World manual_config "")
                       (map Location_urlChange ["/a"; "/b"; "/a"])) in
  external_navigations_recorded manual_config (new_World manual_config "")
    ["/a"; "/b"; "/a"] /\
  _paths s' = ["/a"; "/b"; "/a"].
Proof.
  intros s'.
  destruct (distinct_external_navigations_are_recorded manual_config
              (new_World manual_config "") ["/a"; "/b"; "/a"]) as (H1 & H2 & _).
  - reflexivity.
  - reflexivity.
  - unfold Js.length. simpl. lia.
  - cbn. repeat split; discriminate.
  - cbn. discriminate.
  - split; [exact H1 | exact H2].
Defined.

(** ** Eviction *)



(** ** Every reachable world is well formed *)

Lemma addToHistory_length_bound config path s :
  Js.length (_paths (addToHistory config path s))
  <= Z.max 0 (maxHistoryLength config).
Proof.
  unfold addToHistory. cbn [_paths set_paths].
  destruct (Z.ltb_spec (maxHistoryLength config) (Js.length (_paths s ++ [path])));
    cbn; [|lia].
  unfold Js.splice_front, Js.length in *. rewrite length_drop. lia.
Qed.

Lemma addToHistory_index_bound config path s :
  -1 <= _currentIndex s -> -1 <= _currentIndex (addToHistory config path s).
Proof.
  intros H. rewrite addToHistory_currentIndex. destruct (_ <? _); lia.
Qed.

Lemma handleExternalNavigation_length_bound config path s :
  Js.length (_paths (handleExternalNavigation config path s))
  <= Z.max 0 (maxHistoryLength config).
Proof.
  unfold handleExternalNavigation, updateNavigationState, push_navigationState.
  cbn [_paths set_currentIndex]. apply addToHistory_length_bound.
Qed.

Lemma handleExternalNavigation_index_bound config path s :
  -1 <= _currentIndex (handleExternalNavigation config path s).
Proof.
  rewrite handleExternalNavigation_currentIndex.
  pose proof (length_nonneg (_paths (handleExternalNavigation config path s))). lia.
Qed.

Lemma handles_below_mono n n' k :
  (n <= n')%nat -> handles_below n k -> handles_below n' k.
Proof. intros Hle. destruct k; simpl; intuition lia. Qed.

Lemma Forall_handles_below_mono n n' l :
  (n <= n')%nat -> Forall (handles_below n) l -> Forall (handles_below n') l.
Proof.
  intros Hle H. eapply Forall_impl; [exact H|].
  intros k. apply handles_below_mono, Hle.
Qed.

Lemma router_handle_below n l h :
  Forall (handles_below n) l -> h ∈ omap router_handle l -> (h < n)%nat.
Proof.
  intros Hall Hin. apply list_elem_of_omap in Hin as (k & Hk & Hh).
  rewrite Forall_forall in Hall. specialize (Hall k Hk).
  destruct k; simpl in *; inversion Hh; subst; intuition lia.
Qed.

Lemma NoDup_router_handles_snoc n l k h :
  Forall (handles_below n) l ->
  NoDup (omap router_handle l) ->
  router_handle k = Some h -> (n <= h)%nat ->
  NoDup (omap router_handle (l ++ [k])).
Proof.
  intros Hall Hnd Hk Hh. rewrite omap_app. cbn [omap list_omap]. rewrite Hk.
  apply NoDup_app. split; [exact Hnd|]. split; [|apply NoDup_singleton].
  intros x Hx Hx'. apply list_elem_of_singleton in Hx'. subst x.
  apply (router_handle_below n) in Hx; [lia | exact Hall].
Qed.

Lemma NoDup_router_handles_waiter l caller awaited index :
  NoDup (omap router_handle l) ->
  NoDup (omap router_handle (l ++ [in_navigateToIndex caller awaited index])).
Proof.
  intros Hnd. rewrite omap_app. cbn. rewrite app_nil_r. exact Hnd.
Qed.

(** What [extract] answers. *)
Lemma extract_Some {A} (f : A -> bool) l x rest :
  extract f l = Some (x, rest) ->
  exists l1 l2, l = (l1 ++ x :: l2)%list /\ rest = (l1 ++ l2)%list /\ f x = true /\
                Forall (fun y => f y = false) l1.
Proof.
  revert x rest. induction l as [|y l IH]; intros x rest H; [discriminate|].
  simpl in H. destruct (f y) eqn:Hy.
  - inversion H; subst. exists [], rest. repeat split; auto.
  - destruct (extract f l) as [[z rest']|] eqn:E; [|discriminate].
    inversion H; subst. destruct (IH _ _ eq_refl) as (l1 & l2 & -> & -> & Hx & Hall).
    exists (y :: l1), l2. repeat split; auto.
Qed.

Lemma extract_None {A} (f : A -> bool) l :
  extract f l = None -> Forall (fun y => f y = false) l.
Proof.
  induction l as [|y l IH]; intros H; [constructor|].
  simpl in H. destruct (f y) eqn:Hy; [discriminate|].
  destruct (extract f l) as [[z rest']|]; [discriminate|].
  constructor; auto.
Qed.

Lemma Forall_filter_keeps {A} (P Q : A -> Prop) `{!forall x, Decision (Q x)} l :
  Forall P l -> Forall P (filter Q l).
Proof.
  rewrite !Forall_forall. intros HP x Hx.
  apply list_elem_of_filter in Hx as [_ Hx]. auto.
Qed.

Lemma NoDup_omap_filter {A B} (g : A -> option B) (Q : A -> Prop)
    `{!forall x, Decision (Q x)} l :
  NoDup (omap g l) -> NoDup (omap g (filter Q l)).
Proof.
  induction l as [|x l IH]; intros Hnd; [constructor|].
  cbn [omap list_omap] in Hnd.
  assert (Hrest : NoDup (omap g l)).
  { destruct (g x); [apply NoDup_cons in Hnd as [_ Hnd]|]; exact Hnd. }
  rewrite filter_cons. destruct (decide (Q x)); [|auto].
  cbn [omap list_omap]. destruct (g x) as [b|] eqn:Hg; [|auto].
  apply NoDup_cons in Hnd as [Hnotin _]. apply NoDup_cons. split; [|auto].
  intros Hin. apply Hnotin.
  apply list_elem_of_omap in Hin as (y & Hy & Hgy).
  apply list_elem_of_filter in Hy as [_ Hy].
  apply list_elem_of_omap. eauto.
Qed.

Section WellFormed.

Variable config : HistoryConfig.

Lemma wf_with_service w s :
  well_formed config w ->
  Js.length (_paths s) <= Z.max 0 (maxHistoryLength config) ->
  -1 <= _currentIndex s ->
  (forall p, navigationPromise s = Some p -> (p < next_handle w)%nat) ->
  well_formed config (with_service s w).
Proof. intros [] H1 H2 H3. constructor; auto. Qed.

Lemma wf_settle w caller value :
  well_formed config w -> well_formed config (settle caller value w).
Proof. intros []. constructor; auto. Qed.

Lemma wf_new_promise w :
  well_formed config w -> well_formed config (new_promise w).2.
Proof.
  intros []. constructor; cbn; auto.
  - eapply Forall_handles_below_mono; [|eassumption]. lia.
  - intros p Hp. apply wf_promise0 in Hp. lia.
Qed.

Lemma wf_call_performNavigation w caller index :
  well_formed config w -> (caller < next_handle w)%nat -> 0 <= index ->
  well_formed config (call_performNavigation config caller index w).
Proof.
  intros [] Hc Hi. constructor; cbn; auto.
  - lia.
  - apply Forall_app. split.
    + eapply Forall_handles_below_mono; [|eassumption]. lia.
    + repeat constructor; lia.
  - eapply (NoDup_router_handles_snoc (next_handle w));
      [eassumption | assumption | reflexivity | lia].
  - intros p Hp. inversion Hp. lia.
Qed.

Lemma wf_navigateToIndex w caller index :
  well_formed config w -> (caller < next_handle w)%nat ->
  well_formed config (navigateToIndex config caller index w).
Proof.
  intros Hwf Hc. unfold navigateToIndex.
  destruct (Z.ltb_spec index 0) as [Hneg|Hpos]; cbn [orb].
  - apply wf_settle, wf_with_service; apply Hwf.
  - destruct (Z.leb_spec (Js.length (_paths (service w))) index).
    + apply wf_settle, wf_with_service; apply Hwf.
    + destruct (navigationPromise (service w)) as [p|] eqn:Hp.
      * destruct Hwf. constructor; cbn; auto.
        -- apply Forall_app. split; [assumption|].
           repeat constructor; auto; lia.
        -- apply NoDup_router_handles_waiter; assumption.
      * apply wf_call_performNavigation; assumption.
Qed.

Lemma wf_call w method :
  (forall w', well_formed config w' ->
              well_formed config (method (next_handle w') (new_promise w').2)) ->
  well_formed config w -> well_formed config (call method w).
Proof. intros Hm Hwf. unfold call. cbn. apply Hm, Hwf. Qed.

Lemma wf_goBack w :
  well_formed config w ->
  well_formed config (goBack config (next_handle w) (new_promise w).2).
Proof.
  intros Hwf. pose proof (wf_new_promise w Hwf) as Hwf'.
  unfold goBack. destruct (negb _).
  - apply wf_settle, wf_with_service; apply Hwf'.
  - apply wf_navigateToIndex; [assumption | cbn; lia].
Qed.

Lemma wf_goForward w :
  well_formed config w ->
  well_formed config (goForward config (next_handle w) (new_promise w).2).
Proof.
  intros Hwf. pose proof (wf_new_promise w Hwf) as Hwf'.
  unfold goForward. destruct (negb _).
  - apply wf_settle, wf_with_service; apply Hwf'.
  - apply wf_navigateToIndex; [assumption | cbn; lia].
Qed.

Lemma wf_navigateToPath path w :
  well_formed config w ->
  well_formed config (navigateToPath config path (next_handle w) (new_promise w).2).
Proof.
  intros Hwf. pose proof (wf_new_promise w Hwf) as Hwf'.
  unfold navigateToPath. destruct (_ =? _).
  - apply wf_settle, wf_with_service; apply Hwf'.
  - apply wf_navigateToIndex; [assumption | cbn; lia].
Qed.

Lemma wf_initialize path w :
  well_formed config w ->
  well_formed config (initialize config path (next_handle w) (new_promise w).2).
Proof.
  intros []. constructor; cbn; auto.
  - apply Forall_app. split.
    + eapply Forall_handles_below_mono; [|eassumption]. lia.
    + repeat constructor; lia.
  - eapply (NoDup_router_handles_snoc (next_handle w));
      [eassumption | assumption | reflexivity | lia].
  - intros p Hp. apply wf_promise0 in Hp. lia.
Qed.

Lemma wf_clearHistory w :
  well_formed config w ->
  well_formed config (with_service (clearHistory config (service w)) w).
Proof.
  intros Hwf. apply wf_with_service; [exact Hwf | | | apply Hwf].
  - cbn. unfold Js.length. simpl. lia.
  - cbn. lia.
Qed.

Lemma wf_onUrlChange path s :
  Js.length (_paths s) <= Z.max 0 (maxHistoryLength config) ->
  -1 <= _currentIndex s ->
  let s' := onUrlChange config path s in
  Js.length (_paths s') <= Z.max 0 (maxHistoryLength config) /\
  -1 <= _currentIndex s' /\
  navigationPromise s' = navigationPromise s.
Proof.
  intros Hl Hi. unfold onUrlChange.
  destruct (decide _); [auto|].
  cbn [isInternalNavigation set_previousPath].
  destruct (isInternalNavigation s).
  - cbn. auto.
  - split; [apply handleExternalNavigation_length_bound|].
    split; [apply handleExternalNavigation_index_bound|].
    apply (handleExternalNavigation_frame config path (set_previousPath (Some path) s)).
Qed.

Lemma wf_location_urlChange path w :
  well_formed config w -> well_formed config (location_urlChange config path w).
Proof.
  intros Hwf. unfold location_urlChange.
  destruct (wf_onUrlChange path (set_location_path path (service w)))
    as (H1 & H2 & H3); try apply Hwf.
  apply wf_with_service; auto. rewrite H3. apply Hwf.
Qed.

Lemma wf_window_popstate path w :
  well_formed config w -> well_formed config (window_popstate config path w).
Proof.
  intros Hwf. unfold window_popstate, handleBrowserHistoryChange.
  set (s := set_location_path path (service w)).
  destruct (negb _) eqn:E.
  - apply wf_with_service; auto; cbn; try apply Hwf.
    destruct (indexOf_range (_paths (service w)) (currentPath config s)); lia.
  - apply wf_with_service; auto.
    + apply handleExternalNavigation_length_bound.
    + apply handleExternalNavigation_index_bound.
    + destruct (handleExternalNavigation_frame config (currentPath config s) s)
        as (H1 & _). rewrite H1. apply Hwf.
Qed.

Lemma wf_resume_waiters_fold waiting :
  forall w,
    well_formed config w ->
    Forall (handles_below (next_handle w)) waiting ->
    well_formed config (foldl (resume_waiter config) w waiting).
Proof.
  induction waiting as [|k waiting IH]; intros w Hwf Hall; [exact Hwf|].
  apply Forall_cons in Hall as [Hk Hall]. cbn [foldl]. apply IH.
  - destruct k; cbn [resume_waiter]; auto.
    apply wf_call_performNavigation; [assumption | apply Hk | apply Hk].
  - eapply Forall_handles_below_mono; [|eassumption].
    destruct k; cbn; lia.
Qed.

Lemma wf_resume_waiters p w :
  well_formed config w -> well_formed config (resume_waiters config p w).
Proof.
  intros Hwf. unfold resume_waiters. apply wf_resume_waiters_fold.
  - destruct Hwf. constructor; cbn; auto.
    + apply Forall_filter_keeps; assumption.
    + apply NoDup_omap_filter; assumption.
  - cbn. apply Forall_filter_keeps, Hwf.
Qed.

Lemma wf_remove_suspended w l1 k l2 :
  well_formed config w -> suspended w = l1 ++ k :: l2 ->
  well_formed config (with_suspended (l1 ++ l2) w).
Proof.
  intros [] Hl. rewrite Hl in *. constructor; cbn; auto.
  - apply Forall_app in wf_below0 as [H1 H2].
    apply Forall_cons in H2 as [_ H2]. apply Forall_app. auto.
  - rewrite omap_app in *. cbn [omap list_omap] in wf_nodup0.
    apply NoDup_app in wf_nodup0 as (N1 & N2 & N3).
    apply NoDup_app. split; [exact N1|].
    destruct (router_handle k).
    + apply NoDup_cons in N3 as [_ N3]. split; [|exact N3].
      intros x Hx Hx'. apply (N2 x Hx). right. exact Hx'.
    + auto.
Qed.

Lemma wf_router_settles h r w :
  well_formed config w -> well_formed config (router_settles config h r w).
Proof.
  intros Hwf. unfold router_settles.
  destruct (extract _ _) as [[k rest]|] eqn:E; [|exact Hwf].
  apply extract_Some in E as (l1 & l2 & Hl & -> & _ & _).
  destruct k as [caller self targetPath| |caller initialPath]; [| exact Hwf |].
  - destruct (performNavigation_resume targetPath r (service w)) as [s1 ret] eqn:E.
    apply wf_resume_waiters, wf_settle.
    apply (wf_remove_suspended _ _ (in_performNavigation caller self targetPath));
      [|exact Hl].
    unfold performNavigation_resume in E.
    destruct r as [[|]|error]; inversion E; subst;
      apply wf_with_service; try apply Hwf; cbn; discriminate.
  - destruct (initialize_resume config initialPath r (service w)) as [s1 ret] eqn:E.
    apply wf_settle.
    apply (wf_remove_suspended _ _ (in_initialize caller initialPath)); [|exact Hl].
    unfold initialize_resume in E.
    destruct r as [[|]|error]; inversion E; subst;
      apply wf_with_service; try apply Hwf; cbn.
    + apply addToHistory_length_bound.
    + lia.
    + pose proof (addToHistory_frame config initialPath (set_paths [] (service w))) as F.
      cbv zeta in F. destruct F as (F1 & _). rewrite F1. apply Hwf.
Qed.

Lemma step_well_formed w e :
  well_formed config w -> well_formed config (step config w e).
Proof.
  intros Hwf. destruct e; cbn [step].
  - apply wf_call; [apply wf_goBack | exact Hwf].
  - apply wf_call; [apply wf_goForward | exact Hwf].
  - apply wf_call; [apply wf_navigateToPath | exact Hwf].
  - apply wf_call; [apply wf_initialize | exact Hwf].
  - apply wf_call; [apply wf_initialize | exact Hwf].
  - apply wf_clearHistory, Hwf.
  - apply wf_location_urlChange, Hwf.
  - apply wf_window_popstate, Hwf.
  - apply wf_router_settles, Hwf.
Qed.

Lemma new_World_well_formed loc : well_formed config (new_World config loc).
Proof.
  constructor; cbn -[new_HistoryService]; try constructor;
    unfold new_HistoryService, initializeWithCurrentRoute;
    destruct (autoInitialize config); cbn -[addToHistory].
  - apply addToHistory_length_bound.
  - unfold Js.length. simpl. lia.
  - apply addToHistory_index_bound. cbn. lia.
  - lia.
  - intros p. rewrite (proj1 (addToHistory_frame config _ _)). discriminate.
  - discriminate.
Qed.

Lemma reachable_well_formed w : reachable config w -> well_formed config w.
Proof.
  induction 1; [apply new_World_well_formed | apply step_well_formed; assumption].
Qed.

End WellFormed.

(** ** External navigation while forward history exists *)

Lemma kept_history_forward s :
  -1 <= _currentIndex s ->
  _currentIndex s < Js.length (_paths s) - 1 ->
  kept_history s = take (Z.to_nat (_currentIndex s + 1)) (_paths s).
Proof.
  intros Hlow Hfwd. unfold kept_history, Js.splice_from.
  destruct (Z.ltb_spec (_currentIndex s) (Js.length (_paths s) - 1)); [|lia].
  destruct (Z.ltb_spec (_currentIndex s + 1) 0); [lia|].
  f_equal. lia.
Qed.

(** C2: in every reachable world where [currentIndex < stack.length - 1],
    handling an external change to [path] leaves the entries at positions
    [0 .. currentIndex], followed by [path], and puts [currentIndex] on that
    last entry; this is also what the location listener does with such a
    notification.  In particular [/a,/b,/c] at index 0 becomes [/a,/d] at
    index 1. *)
Theorem external_navigation_discards_forward_history config w path :
  reachable config w ->
  let s := service w in
  _currentIndex s < Js.length (_paths s) - 1 ->
  let s' := handleExternalNavigation config path s in
  (_paths s' = take (Z.to_nat (_currentIndex s + 1)) (_paths s) ++ [path] /\
   _currentIndex s' = Js.length (_paths s') - 1 /\
   _currentIndex s' = _currentIndex s + 1) /\
  (isInternalNavigation s = false -> previousPath s <> Some path ->
   let s'' := service (step config w (Location_urlChange path)) in
   _paths s'' = _paths s' /\ _currentIndex s'' = _currentIndex s') /\
  (_paths s = ["/a"; "/b"; "/c"] -> _currentIndex s = 0 -> path = "/d" ->
   _paths s' = ["/a"; "/d"] /\ _currentIndex s' = 1).
Proof.
  intros Hreach s Hfwd s'.
  destruct (reachable_well_formed config w Hreach) as [Hlen Hidx _ _ _].
  fold s in Hlen, Hidx.
  pose proof (length_nonneg (_paths s)) as Hnn.
  assert (Hmax : 0 <= maxHistoryLength config) by lia.
  assert (Hp : _paths s' = take (Z.to_nat (_currentIndex s + 1)) (_paths s) ++ [path]).
  { subst s'. rewrite handleExternalNavigation_paths by assumption.
    rewrite kept_history_forward by assumption.
    apply lastn_all. rewrite length_app, length_take. cbn [length].
    unfold Js.length in *. lia. }
  assert (Hi : _currentIndex s' = _currentIndex s + 1).
  { pose proof (handleExternalNavigation_currentIndex config path s) as E.
    fold s' in E. rewrite E, Hp.
    unfold Js.length in *. rewrite length_app, length_take.
    cbn [length]. lia. }
  split; [|split].
  - split; [exact Hp|]. split; [reflexivity | exact Hi].
  - intros Hflag Hprev. cbn [step]. unfold location_urlChange. cbn [service with_service].
    change (onUrlChange config path (set_location_path path (service w)))
      with (notify config s path).
    rewrite notify_external by assumption. subst s'.
    rewrite !handleExternalNavigation_currentIndex.
    rewrite !handleExternalNavigation_paths by assumption.
    split; reflexivity.
  - intros Hs Hz ->. rewrite Hp, Hi, Hs, Hz. split; reflexivity.
Qed.

Lemma external_navigation_discards_forward_history_witness :
  let w := run DEFAULT_HISTORY_CONFIG (new_World DEFAULT_HISTORY_CONFIG "/a")
             [Location_urlChange "/b"; Location_urlChange "/c"; Window_popstate "/a"] in
  _paths (service w) = ["/a"; "/b"; "/c"] /\
  _currentIndex (service w) = 0 /\
  _paths (handleExternalNavigation DEFAULT_HISTORY_CONFIG "/d" (service w)) = ["/a"; "/d"] /\
  _currentIndex (handleExternalNavigation DEFAULT_HISTORY_CONFIG "/d" (service w)) = 1.
Proof.
  intros w.
  assert (Hreach : reachable DEFAULT_HISTORY_CONFIG w).
  { repeat apply reachable_step. apply reachable_new. }
  assert (Hfwd : _currentIndex (service w) < Js.length (_paths (service w)) - 1)
    by (vm_compute; reflexivity).
  destruct (external_navigation_discards_forward_history DEFAULT_HISTORY_CONFIG w "/d"
              Hreach Hfwd) as (_ & _ & H).
  destruct (H eq_refl eq_refl eq_refl) as [Hp Hi].
  split; [reflexivity|]. split; [reflexivity|]. split; [exact Hp | exact Hi].
Defined.

(** ** The index invariant *)

Lemma call_performNavigation_service config caller index w :
  _paths (service (call_performNavigation config caller index w)) = _paths (service w) /\
  _currentIndex (service (call_performNavigation config caller index w)) = index /\
  navigationPromise (service (call_performNavigation config caller index w))
  = Some (next_handle w) /\
  location_path (service (call_performNavigation config caller index w))
  = location_path (service w) /\
  isInternalNavigation (service (call_performNavigation config caller index w)) = true /\
  settled (call_performNavigation config caller index w) = settled w /\
  suspended (call_performNavigation config caller index w)
  = suspended w ++ [in_performNavigation caller (next_handle w)
                      (Js.get (_paths (service w)) index)] /\
  next_handle (call_performNavigation config caller index w) = S (next_handle w).
Proof. repeat split; reflexivity. Qed.

Lemma resume_waiters_fold_paths config waiting :
  forall w,
    _paths (service (foldl (resume_waiter config) w waiting)) = _paths (service w) /\
    settled (foldl (resume_waiter config) w waiting) = settled w /\
    location_path (service (foldl (resume_waiter config) w waiting))
    = location_path (service w).
Proof.
  induction waiting as [|k waiting IH]; intros w; [repeat split|].
  cbn [foldl]. destruct (IH (resume_waiter config w k)) as (H1 & H2 & H3).
  rewrite H1, H2, H3. destruct k; repeat split; reflexivity.
Qed.

Lemma resume_waiters_fold_index config waiting :
  forall w,
    index_in_range (service w) ->
    Forall (waiter_in_range (service w)) waiting ->
    index_in_range (service (foldl (resume_waiter config) w waiting)).
Proof.
  induction waiting as [|k waiting IH]; intros w Hinv Hall; [exact Hinv|].
  apply Forall_cons in Hall as [Hk Hall]. cbn [foldl]. apply IH.
  - destruct k; cbn [resume_waiter]; auto. intros _. exact Hk.
  - destruct k; cbn [resume_waiter]; auto.
Qed.

Lemma handleExternalNavigation_index_in_range config path s :
  index_in_range (handleExternalNavigation config path s).
Proof.
  intros Hne. rewrite handleExternalNavigation_currentIndex.
  destruct (_paths (handleExternalNavigation config path s)); [contradiction|].
  unfold Js.length. cbn [length]. lia.
Qed.

Lemma navigateToIndex_index_in_range config caller index w :
  index_in_range (service w) ->
  index_in_range (service (navigateToIndex config caller index w)).
Proof.
  intros Hinv. unfold navigateToIndex.
  destruct (Z.ltb_spec index 0); cbn [orb]; [exact Hinv|].
  destruct (Z.leb_spec (Js.length (_paths (service w))) index); [exact Hinv|].
  destruct (navigationPromise (service w)); [exact Hinv|].
  intros _. cbn. lia.
Qed.

(** C4, as stated, fails: in [stale_waiter_world] the invariant holds, and
    the completion of the [goBack] in flight resumes the queued
    [goForward] with the index it was given when the stack was longer. *)
Lemma stale_index_breaks_the_index_invariant :
  reachable DEFAULT_HISTORY_CONFIG stale_waiter_world /\
  index_in_range (service stale_waiter_world) /\
  ~ index_invariant_preserved DEFAULT_HISTORY_CONFIG stale_waiter_world
      (Router_settles 1 (Resolved true)).
Proof.
  split; [apply run_reachable, reachable_new|].
  assert (Hin : index_in_range (service stale_waiter_world)).
  { intros _. vm_compute. split; [discriminate | reflexivity]. }
  split; [exact Hin|].
  intros H. specialize (H Hin).
  assert (Hne : _paths (service (step DEFAULT_HISTORY_CONFIG stale_waiter_world
                                   (Router_settles 1 (Resolved true)))) <> [])
    by (vm_compute; discriminate).
  specialize (H Hne). vm_compute in H. destruct H as [_ H]. discriminate.
Qed.

(** C4, amended: the invariant [0 <= currentIndex < stack.length] (for a
    non-empty stack) holds after construction and is preserved by every
    step of the machine (public calls, location and popstate notifications,
    router completions, eviction included) in which every queued
    index-navigation that resumes holds an index still inside the stack. *)
Theorem index_invariant_without_stale_waiters config :
  (forall loc, index_in_range (service (new_World config loc))) /\
  (forall w e,
     Forall (waiter_in_range (service w)) (resumed_by e w) ->
     index_invariant_preserved config w e).
Proof.
  split.
  - intros loc. cbn [new_World service].
    unfold new_HistoryService, initializeWithCurrentRoute.
    destruct (autoInitialize config); unfold index_in_range; cbn -[addToHistory].
    + intros Hne. rewrite addToHistory_currentIndex. cbn [_currentIndex _paths].
      destruct (_paths (addToHistory config _ _)) eqn:E; [contradiction|].
      unfold Js.length. cbn [length].
      destruct (Z.ltb_spec (maxHistoryLength config) (Z.of_nat 0 + 1)); lia.
    + intros Hne. contradiction.
  - intros w e Hres Hinv. destruct e; cbn [step].
    + unfold call, goBack. cbn. destruct (negb _); [exact Hinv|].
      apply navigateToIndex_index_in_range, Hinv.
    + unfold call, goForward. cbn. destruct (negb _); [exact Hinv|].
      apply navigateToIndex_index_in_range, Hinv.
    + unfold call, navigateToPath. cbn. destruct (_ =? _); [exact Hinv|].
      apply navigateToIndex_index_in_range, Hinv.
    + exact Hinv.
    + exact Hinv.
    + intros Hne. contradiction.
    + unfold location_urlChange, onUrlChange. cbn.
      destruct (decide _); [exact Hinv|].
      destruct (isInternalNavigation (service w)); [exact Hinv|].
      apply handleExternalNavigation_index_in_range.
    + unfold window_popstate, handleBrowserHistoryChange. cbn [service with_service].
      set (s := set_location_path path (service w)).
      destruct (Z.eqb_spec (Js.indexOf (_paths s) (currentPath config s)) (-1));
        cbn [negb].
      * apply handleExternalNavigation_index_in_range.
      * intros _. cbn.
        destruct (indexOf_range (_paths (service w)) (currentPath config s)); [|lia].
        contradiction.
    + unfold router_settles. cbn [resumed_by] in Hres.
      destruct (extract _ _) as [[k rest]|] eqn:E; [|exact Hinv].
      destruct k as [caller self targetPath| |caller initialPath]; [|exact Hinv|].
      * apply extract_Some in E as (l1 & l2 & Hl & -> & _ & _).
        destruct (performNavigation_resume targetPath r (service w)) as [s1 ret] eqn:Er.
        assert (Hs1 : _paths s1 = _paths (service w) /\
                      _currentIndex s1 = _currentIndex (service w)).
        { unfold performNavigation_resume in Er.
          destruct r as [[|]|error]; inversion Er; subst; split; reflexivity. }
        destruct Hs1 as [Hp1 Hi1].
        unfold resume_waiters. apply resume_waiters_fold_index.
        -- cbn. unfold index_in_range. rewrite Hp1, Hi1. exact Hinv.
        -- cbn. rewrite Hl in Hres. rewrite filter_app, filter_cons in Hres.
           rewrite filter_app.
           destruct (decide (awaits_promise self
                               (in_performNavigation caller self targetPath) = true))
             as [Habs|_]; [discriminate Habs|].
           rewrite <- filter_app in *.
           eapply Forall_impl; [exact Hres|].
           intros k. unfold waiter_in_range. rewrite Hp1. auto.
      * destruct r as [[|]|error]; cbn -[addToHistory]; try exact Hinv.
        unfold index_in_range. cbn -[addToHistory].
        intros Hne. split; [lia|].
        destruct (_paths (addToHistory config initialPath _)); [contradiction|].
        unfold Js.length. cbn [length]. lia.
Qed.

Lemma index_invariant_without_stale_waiters_witness :
  let w := run DEFAULT_HISTORY_CONFIG (new_World DEFAULT_HISTORY_CONFIG "/a")
             [Location_urlChange "/b"; Call_goBack; Call_goForward] in
  index_invariant_preserved DEFAULT_HISTORY_CONFIG w (Router_settles 1 (Resolved true)).
Proof.
  intros w.
  apply (proj2 (index_invariant_without_stale_waiters DEFAULT_HISTORY_CONFIG) w).
  vm_compute. repeat constructor; intros H; discriminate.
Defined.

(** ** Requests that arrive while a navigation is in flight *)

Lemma NoDup_omap_inj {A B} (g : A -> option B) l x y b :
  NoDup (omap g l) -> x ∈ l -> y ∈ l -> g x = Some b -> g y = Some b -> x = y.
Proof.
  induction l as [|z l IH]; intros Hnd Hx Hy Hgx Hgy.
  - exfalso. eapply not_elem_of_nil, Hx.
  - cbn [omap list_omap] in Hnd.
    apply elem_of_cons in Hx as [->|Hx]; apply elem_of_cons in Hy as [->|Hy].
    + reflexivity.
    + rewrite Hgx in Hnd. apply NoDup_cons in Hnd as [Hnotin _].
      exfalso. apply Hnotin. apply list_elem_of_omap. eauto.
    + rewrite Hgy in Hnd. apply NoDup_cons in Hnd as [Hnotin _].
      exfalso. apply Hnotin. apply list_elem_of_omap. eauto.
    + apply IH; auto.
      destruct (g z); [apply NoDup_cons in Hnd as [_ Hnd]|]; exact Hnd.
Qed.

Lemma extract_app {A} (f : A -> bool) l l' x rest :
  extract f l = Some (x, rest) -> extract f (l ++ l') = Some (x, rest ++ l').
Proof.
  revert x rest. induction l as [|y l IH]; intros x rest H; [discriminate|].
  cbn [extract app] in *. destruct (f y).
  - inversion H; subst. reflexivity.
  - destruct (extract f l) as [[z rest']|]; [|discriminate].
    inversion H; subst. rewrite (IH _ _ eq_refl). reflexivity.
Qed.

Lemma extract_last {A} (f : A -> bool) l x :
  Forall (fun y => f y = false) l -> f x = true ->
  extract f (l ++ [x]) = Some (x, l).
Proof.
  intros Hall Hx. induction Hall as [|y l Hy _ IH]; cbn [extract app].
  - rewrite Hx. reflexivity.
  - rewrite Hy, IH. reflexivity.
Qed.

Lemma awaits_router_handle h k :
  awaits_router h k = true <-> router_handle k = Some h.
Proof.
  destruct k; cbn; rewrite ?Nat.eqb_eq; split; intros H;
    try discriminate; try (inversion H; reflexivity); subst; reflexivity.
Qed.

(** In a well-formed world the router call with the handle of a suspended
    [performNavigation] is that very call. *)
Lemma extract_inflight config w caller p target :
  well_formed config w ->
  in_performNavigation caller p target ∈ suspended w ->
  exists l1 l2,
    suspended w = l1 ++ in_performNavigation caller p target :: l2 /\
    extract (awaits_router p) (suspended w)
    = Some (in_performNavigation caller p target, l1 ++ l2).
Proof.
  intros Hwf Hin.
  destruct (extract (awaits_router p) (suspended w)) as [[k rest]|] eqn:E.
  - apply extract_Some in E as (l1 & l2 & Hl & -> & Hk & _).
    assert (k = in_performNavigation caller p target) as ->.
    { eapply (NoDup_omap_inj router_handle (suspended w)).
      - apply Hwf.
      - rewrite Hl. apply elem_of_app. right. left.
      - exact Hin.
      - apply awaits_router_handle, Hk.
      - reflexivity. }
    eauto.
  - apply extract_None in E. rewrite Forall_forall in E.
    specialize (E _ Hin). cbn in E. rewrite Nat.eqb_refl in E. discriminate.
Qed.

Lemma performNavigation_resume_facts target r s :
  let finished := performNavigation_resume target r s in
  finished.2 = is_success r /\
  _paths finished.1 = _paths s /\
  _currentIndex finished.1 = _currentIndex s /\
  location_path finished.1 = location_path s /\
  previousPath finished.1 = previousPath s /\
  navigationPromise finished.1 = None.
Proof. destruct r as [[|]|error]; cbn; repeat split; reflexivity. Qed.

Lemma request_reaches_navigateToIndex config w e index :
  requests_index e (service w) index ->
  step config w e = navigateToIndex config (next_handle w) index (new_promise w).2.
Proof.
  destruct e; cbn [requests_index]; try contradiction.
  - intros [Hcan ->]. cbn. unfold call, goBack. cbn. rewrite Hcan. reflexivity.
  - intros [Hcan ->]. cbn. unfold call, goForward. cbn. rewrite Hcan. reflexivity.
  - intros [<- Hne]. cbn. unfold call, navigateToPath. cbn.
    destruct (Z.eqb_spec (Js.indexOf (_paths (service w)) path) (-1)); [contradiction|].
    reflexivity.
Qed.


Lemma navigateToIndex_idle config w caller index :
  0 <= index < Js.length (_paths (service w)) ->
  navigationPromise (service w) = None ->
  navigateToIndex config caller index w = call_performNavigation config caller index w.
Proof.
  intros Hrange Hp. unfold navigateToIndex.
  destruct (Z.ltb_spec index 0); [lia|].
  destruct (Z.leb_spec (Js.length (_paths (service w))) index); [lia|].
  cbn [orb]. rewrite Hp. reflexivity.
Qed.

(** Settling the router call of the [performNavigation] that the last
    suspended entry stands for. *)
Lemma router_settles_last config w caller self target r :
  well_formed config w ->
  forall l, suspended w = l ++ [in_performNavigation caller self target] ->
  Forall (fun k => awaits_promise self k <> true) l ->
  let finished := performNavigation_resume target r (service w) in
  router_settles config self r w
  = settle caller finished.2 (with_suspended l (with_service finished.1 w)).
Proof.
  intros Hwf l Hl Hnone finished. unfold router_settles.
  rewrite Hl, extract_last.
  - fold finished. destruct finished as [s1 ret]. cbn [fst snd].
    unfold resume_waiters. cbn [suspended settle with_suspended].
    assert (E1 : filter (fun k => awaits_promise self k = true) l = []).
    { clear -Hnone. induction Hnone as [|k l Hk _ IH]; [reflexivity|].
      rewrite filter_cons_False; [exact IH|]. exact Hk. }
    assert (E2 : filter (fun k => awaits_promise self k <> true) l = l).
    { clear -Hnone. induction Hnone as [|k l Hk _ IH]; [reflexivity|].
      rewrite filter_cons_True by exact Hk. rewrite IH. reflexivity. }
    rewrite E1, E2. reflexivity.
  - destruct Hwf as [_ _ _ Hnd _]. rewrite Hl, omap_app in Hnd. cbn in Hnd.
    apply NoDup_app in Hnd as (_ & Hdisj & _).
    rewrite Forall_forall. intros k Hk.
    destruct (awaits_router self k) eqn:E; [|reflexivity].
    exfalso. apply awaits_router_handle in E.
    apply (Hdisj self); [apply list_elem_of_omap; eauto | left].
  - cbn. apply Nat.eqb_refl.
Qed.

Lemma no_waiter_on_fresh_handle config w :
  well_formed config w ->
  Forall (fun k => awaits_promise (next_handle w) k <> true) (suspended w).
Proof.
  intros Hwf. eapply Forall_impl; [apply Hwf|].
  intros k Hk. destruct k; cbn in *; try discriminate.
  destruct (Nat.eqb_spec awaited (next_handle w)); [lia | discriminate].
Qed.

Lemma wf_without_waiters config p w :
  well_formed config w ->
  well_formed config
    (with_suspended (filter (fun k => awaits_promise p k <> true) (suspended w)) w).
Proof.
  intros []. constructor; cbn; auto.
  - apply Forall_filter_keeps; assumption.
  - apply NoDup_omap_filter; assumption.
Qed.

Lemma resume_waiters_fold_next config waiting :
  forall w, (next_handle w <= next_handle (foldl (resume_waiter config) w waiting))%nat.
Proof.
  induction waiting as [|k waiting IH]; intros w; cbn [foldl]; [lia|].
  specialize (IH (resume_waiter config w k)).
  destruct k; cbn in *; lia.
Qed.

(** When the last suspended method waits for [p], resuming the waiters of
    [p] ends with that method calling [performNavigation] with its index. *)
Lemma resume_waiters_last config p w l caller index :
  well_formed config w ->
  suspended w = l ++ [in_navigateToIndex caller p index] ->
  exists mid,
    well_formed config mid /\
    resume_waiters config p w = call_performNavigation config caller index mid /\
    _paths (service mid) = _paths (service w) /\
    location_path (service mid) = location_path (service w) /\
    settled mid = settled w /\
    (next_handle w <= next_handle mid)%nat.
Proof.
  intros Hwf Hl. unfold resume_waiters.
  assert (Hw : filter (fun k => awaits_promise p k = true) (suspended w)
               = filter (fun k => awaits_promise p k = true) l
                   ++ [in_navigateToIndex caller p index]).
  { rewrite Hl, filter_app, filter_cons_True by (cbn; apply Nat.eqb_refl).
    rewrite filter_nil. reflexivity. }
  rewrite Hw, foldl_app. cbn [foldl resume_waiter].
  set (others := filter (fun k => awaits_promise p k <> true) (suspended w)).
  set (waiting := filter (fun k => awaits_promise p k = true) l).
  assert (Hall : Forall (handles_below (next_handle w)) waiting).
  { apply Forall_filter_keeps. destruct Hwf as [_ _ Hb _ _].
    rewrite Hl in Hb. apply Forall_app in Hb. apply Hb. }
  exists (foldl (resume_waiter config) (with_suspended others w) waiting).
  destruct (resume_waiters_fold_paths config waiting (with_suspended others w))
    as (H1 & H2 & H3).
  split; [apply wf_resume_waiters_fold; [apply wf_without_waiters, Hwf | exact Hall]|].
  split; [reflexivity|]. split; [exact H1|]. split; [exact H3|]. split; [exact H2|].
  apply (resume_waiters_fold_next config waiting (with_suspended others w)).
Qed.

(** The steps of [router_settles] for a [performNavigation]. *)
Lemma router_settles_perform config w caller p target l1 l2 r :
  well_formed config w ->
  suspended w = l1 ++ in_performNavigation caller p target :: l2 ->
  extract (awaits_router p) (suspended w)
  = Some (in_performNavigation caller p target, l1 ++ l2) ->
  let finished := performNavigation_resume target r (service w) in
  let w0 := settle caller finished.2
              (with_suspended (l1 ++ l2) (with_service finished.1 w)) in
  router_settles config p r w = resume_waiters config p w0 /\
  well_formed config w0.
Proof.
  intros Hwf Hl He finished w0. split.
  - unfold router_settles. rewrite He. subst w0.
    fold finished. destruct finished. reflexivity.
  - subst w0. apply wf_settle.
    apply (wf_remove_suspended _ _ _ (in_performNavigation caller p target)); [|exact Hl].
    destruct (performNavigation_resume_facts target r (service w))
      as (_ & Hp & Hi & _ & _ & Hn).
    fold finished in Hp, Hi, Hn.
    apply wf_with_service; [exact Hwf | rewrite Hp; apply Hwf | rewrite Hi; apply Hwf |].
    rewrite Hn. discriminate.
Qed.

(** ** goBack followed by goForward *)

Lemma fresh_router_handle config w :
  well_formed config w ->
  Forall (fun k => awaits_router (next_handle w) k = false) (suspended w).
Proof.
  intros Hwf. eapply Forall_impl; [apply Hwf|].
  intros k Hk. destruct k; cbn in *; try reflexivity;
    apply Nat.eqb_neq; lia.
Qed.

Lemma onUrlChange_internal config path s :
  isInternalNavigation s = true ->
  let s' := onUrlChange config path (set_location_path path s) in
  _paths s' = _paths s /\
  _currentIndex s' = _currentIndex s /\
  navigationPromise s' = navigationPromise s /\
  location_path s' = path.
Proof.
  intros Hflag. unfold onUrlChange. cbn.
  destruct (decide _); [repeat split|].
  rewrite Hflag. repeat split.
Qed.

(** A [performNavigation] that starts in a well-formed world and whose
    router call succeeds. *)
Lemma call_performNavigation_succeeds config w caller index target :
  well_formed config w ->
  (caller < next_handle w)%nat ->
  0 <= index ->
  Js.get (_paths (service w)) index = Some target ->
  let w1 := call_performNavigation config caller index w in
  let w2 := navigator_succeeds config w1 in
  well_formed config w2 /\
  _paths (service w2) = _paths (service w) /\
  _currentIndex (service w2) = index /\
  navigationPromise (service w2) = None /\
  location_path (service w2) = target /\
  settled w2 = (caller, true) :: settled w /\
  next_handle w2 = S (next_handle w).
Proof.
  intros Hwf Hc Hi Hget w1 w2.
  assert (Hwf1 : well_formed config w1)
    by (apply wf_call_performNavigation; assumption).
  assert (Hsusp : suspended w1
                  = suspended w ++ [in_performNavigation caller (next_handle w) (Some target)]).
  { unfold w1. cbn. rewrite Hget. reflexivity. }
  assert (Htarget : inflight_target w1 = Some (next_handle w, target)).
  { unfold inflight_target.
    replace (navigationPromise (service w1)) with (Some (next_handle w)) by reflexivity.
    rewrite Hsusp, extract_last; [reflexivity | | cbn; apply Nat.eqb_refl].
    apply (fresh_router_handle config), Hwf. }
  unfold w2, navigator_succeeds. rewrite Htarget. unfold run. cbn [foldl step].
  set (we := location_urlChange config target w1).
  assert (Hwfe : well_formed config we)
    by (apply (step_well_formed config w1 (Location_urlChange target)), Hwf1).
  destruct (onUrlChange_internal config target (service w1) eq_refl)
    as (Hp & Hx & Hn & Hloc).
  cbv zeta in Hp, Hx, Hn, Hloc.
  change (onUrlChange config target (set_location_path target (service w1)))
    with (service we) in Hp, Hx, Hn, Hloc.
  pose proof (router_settles_last config we caller (next_handle w) (Some target)
                (Resolved true) Hwfe (suspended w) Hsusp
                (no_waiter_on_fresh_handle config w Hwf)) as Hlast.
  cbv zeta in Hlast.
  split; [apply (step_well_formed config we (Router_settles _ _)), Hwfe|].
  rewrite Hlast. cbn [service settled next_handle settle with_suspended with_service
                      performNavigation_resume fst snd set_navigationPromise
                      _paths _currentIndex navigationPromise location_path].
  rewrite Hp, Hx, Hloc. repeat split.
Qed.

Lemma get_in_range {A} (arr : list A) (i : Z) :
  0 <= i < Js.length arr -> exists x, Js.get arr i = Some x.
Proof.
  intros [Hlo Hhi]. unfold Js.get, Js.length in *.
  destruct (Z.ltb_spec i 0); [lia|].
  apply lookup_lt_is_Some_2. lia.
Qed.

(** C8, as stated, fails in two reachable worlds.  In
    [index_past_end_world] the index is one past the only entry: [goBack()]
    succeeds and [goForward()] is then rejected, so the index stays one
    lower.  In [failed_back_world] an earlier failure left the location
    behind the index: the index comes back, the current path does not. *)
Lemma back_then_forward_counterexamples :
  (reachable DEFAULT_HISTORY_CONFIG index_past_end_world /\
   canGoBack (service index_past_end_world) = true /\
   ~ back_then_forward_restores DEFAULT_HISTORY_CONFIG index_past_end_world) /\
  (reachable DEFAULT_HISTORY_CONFIG failed_back_world /\
   canGoBack (service failed_back_world) = true /\
   ~ back_then_forward_restores DEFAULT_HISTORY_CONFIG failed_back_world).
Proof.
  split; (split; [repeat apply run_reachable; apply reachable_new|]);
    (split; [reflexivity|]); intros H.
  - assert (Hsettled :
      settled_value (next_handle index_past_end_world)
        (settled (navigator_succeeds DEFAULT_HISTORY_CONFIG
                    (step DEFAULT_HISTORY_CONFIG index_past_end_world Call_goBack)))
      = Some true) by (vm_compute; reflexivity).
    destruct (H Hsettled) as [Hi _]. vm_compute in Hi. discriminate.
  - assert (Hsettled :
      settled_value (next_handle failed_back_world)
        (settled (navigator_succeeds DEFAULT_HISTORY_CONFIG
                    (step DEFAULT_HISTORY_CONFIG failed_back_world Call_goBack)))
      = Some true) by (vm_compute; reflexivity).
    destruct (H Hsettled) as [_ Hc]. vm_compute in Hc. discriminate.
Qed.

(** C8, amended: in every reachable state with no index navigation in
    flight in which [canGoBack] holds, [currentIndex < stack.length] and the
    observed location is the entry at [currentIndex]: [goBack()] settles to
    [true] once the router has carried it out, and [goForward()] called
    then, carried out as well, settles to [true] and returns [currentIndex]
    and [currentPath] to their original values, the stack unchanged. *)
Theorem back_then_forward_restores_when_in_sync config w :
  reachable config w ->
  navigationPromise (service w) = None ->
  canGoBack (service w) = true ->
  _currentIndex (service w) < Js.length (_paths (service w)) ->
  Js.get (_paths (service w)) (_currentIndex (service w))
  = Some (location_path (service w)) ->
  back_then_forward_restores config w /\
  let w2 := navigator_succeeds config (step config w Call_goBack) in
  let w4 := navigator_succeeds config (step config w2 Call_goForward) in
  settled_value (next_handle w) (settled w2) = Some true /\
  _currentIndex (service w2) = _currentIndex (service w) - 1 /\
  settled_value (next_handle w2) (settled w4) = Some true /\
  _paths (service w4) = _paths (service w).
Proof.
  intros Hreach Hidle Hback Hlt Hsync.
  pose proof (reachable_well_formed config w Hreach) as Hwf.
  assert (Hpos : 0 < _currentIndex (service w))
    by (unfold canGoBack in Hback; lia).
  (* goBack *)
  assert (Hstep1 : step config w Call_goBack
                   = call_performNavigation config (next_handle w)
                       (_currentIndex (service w) - 1) (new_promise w).2).
  { rewrite (request_reaches_navigateToIndex config w Call_goBack
               (_currentIndex (service w) - 1)) by (split; [exact Hback | reflexivity]).
    apply (navigateToIndex_idle config (new_promise w).2); [cbn; lia | exact Hidle]. }
  destruct (get_in_range (_paths (service w)) (_currentIndex (service w) - 1))
    as [t1 Ht1]; [lia|].
  destruct (call_performNavigation_succeeds config (new_promise w).2 (next_handle w)
              (_currentIndex (service w) - 1) t1)
    as (Hwf2 & Hp2 & Hi2 & Hn2 & _ & Hs2 & _);
    [apply wf_new_promise, Hwf | cbn; lia | lia | exact Ht1 |].
  cbv zeta in Hwf2, Hp2, Hi2, Hn2, Hs2. rewrite <- Hstep1 in *.
  set (w2 := navigator_succeeds config (step config w Call_goBack)) in *.
  cbn [service new_promise snd settled] in Hp2, Hs2.
  (* goForward *)
  assert (Hfwd : canGoForward (service w2) = true).
  { unfold canGoForward. rewrite Hp2, Hi2. apply Z.ltb_lt. lia. }
  assert (Hstep2 : step config w2 Call_goForward
                   = call_performNavigation config (next_handle w2)
                       (_currentIndex (service w)) (new_promise w2).2).
  { rewrite (request_reaches_navigateToIndex config w2 Call_goForward
               (_currentIndex (service w))) by (split; [exact Hfwd | lia]).
    apply (navigateToIndex_idle config (new_promise w2).2);
      [cbn; rewrite Hp2; lia | exact Hn2]. }
  destruct (call_performNavigation_succeeds config (new_promise w2).2 (next_handle w2)
              (_currentIndex (service w)) (location_path (service w)))
    as (_ & Hp4 & Hi4 & _ & Hl4 & Hs4 & _);
    [apply wf_new_promise, Hwf2 | cbn; lia | lia
    | cbn [service new_promise snd]; rewrite Hp2; exact Hsync |].
  cbv zeta in Hp4, Hi4, Hl4, Hs4. rewrite <- Hstep2 in *.
  set (w4 := navigator_succeeds config (step config w2 Call_goForward)) in *.
  cbn [service new_promise snd settled] in Hp4, Hs4.
  assert (Hrestored : _currentIndex (service w4) = _currentIndex (service w) /\
                      currentPath config (service w4) = currentPath config (service w)).
  { split; [exact Hi4|]. unfold currentPath. rewrite Hl4. reflexivity. }
  split; [intros _; exact Hrestored|].
  cbv zeta. fold w2. fold w4.
  rewrite Hs2, Hs4. cbn [settled_value]. rewrite !Nat.eqb_refl.
  repeat split; [exact Hi2 | rewrite Hp4; exact Hp2].
Qed.

Lemma back_then_forward_restores_when_in_sync_witness :
  let w := run DEFAULT_HISTORY_CONFIG (new_World DEFAULT_HISTORY_CONFIG "/a")
             [Location_urlChange "/b"; Location_urlChange "/c"] in
  back_then_forward_restores DEFAULT_HISTORY_CONFIG w.
Proof.
  intros w.
  apply (back_then_forward_restores_when_in_sync DEFAULT_HISTORY_CONFIG w).
  - apply run_reachable, reachable_new.
  - reflexivity.
  - reflexivity.
  - vm_compute. reflexivity.
  - reflexivity.
Defined.

(** ** Scenarios of the test suite, replayed *)

(** "should handle navigation boundary conditions": after
    [initialize('/contact')] there is no way back or forward, and [goBack()]
    resolves to [false] with an [INVALID_INDEX] error. *)
Example scenario_boundary_conditions :
  let w := run DEFAULT_HISTORY_CONFIG (new_World DEFAULT_HISTORY_CONFIG "/home")
             [Call_initialize (Some "/contact"); Location_urlChange "/contact";
              Router_settles 0 (Resolved true)] in
  let w' := step DEFAULT_HISTORY_CONFIG w Call_goBack in
  settled_value 0 (settled w) = Some true /\
  canGoBack (service w) = false /\
  canGoForward (service w) = false /\
  settled_value 1 (settled w') = Some false /\
  map type (navigationError_log (service w')) = [INVALID_INDEX].
Proof. vm_compute. repeat split. Qed.

(** "should handle memory management": [maxHistoryLength + 10] navigations
    that alternate between two routes leave [maxHistoryLength] entries. *)
Example scenario_memory_management :
  let visits := concat (replicate 30 ["/about"; "/contact"]) in
  historyLength
    (service (run DEFAULT_HISTORY_CONFIG (new_World DEFAULT_HISTORY_CONFIG "/home")
                (map Location_urlChange visits)))
  = maxHistoryLength DEFAULT_HISTORY_CONFIG.
Proof. vm_compute. reflexivity. Qed.

(** "should handle concurrent navigation attempts": three requests in a
    row; the second and third are queued with a [CONCURRENT_NAVIGATION]
    error each, and all three resolve once the router has answered. *)
Example scenario_concurrent_attempts :
  let w := run DEFAULT_HISTORY_CONFIG (new_World DEFAULT_HISTORY_CONFIG "/home")
             [Location_urlChange "/about"; Location_urlChange "/contact";
              Call_goBack; Call_goBack; Call_goForward;
              Router_settles 1 (Resolved true);
              Router_settles 4 (Resolved true);
              Router_settles 5 (Resolved true)] in
  map type (navigationError_log (service w))
  = [CONCURRENT_NAVIGATION; CONCURRENT_NAVIGATION] /\
  settled_value 0 (settled w) = Some true /\
  settled_value 2 (settled w) = Some true /\
  settled_value 3 (settled w) = Some true /\
  suspended w = [].
Proof. vm_compute. repeat split. Qed.

(** The messages of the errors are those of the source. *)
Example scenario_invalid_index_message :
  let w := navigateToIndex DEFAULT_HISTORY_CONFIG 0 7
             (new_World DEFAULT_HISTORY_CONFIG "/home") in
  map message (navigationError_log (service w))
  = ["Invalid navigation index 7. Valid range: 0-0"].
Proof. vm_compute. reflexivity. Qed.

(** "should have correct initial configuration": the options given
    override the defaults, the others keep them. *)
Example scenario_initial_configuration :
  let config :=
    merge_config
      (Some {| maxHistoryLength_opt := None; debugMode_opt := Some true;
               autoInitialize_opt := None; defaultRoute_opt := None |}) in
  debugMode config = true /\
  maxHistoryLength config = 50 /\
  autoInitialize config = true /\
  merge_config None = DEFAULT_HISTORY_CONFIG.
Proof. repeat split. Qed.

(** * Further properties of the service *)

(** ** Rejected requests *)

(** X1: in a state where [canGoForward] is false, [goForward()] resolves to
    [false], emits one [INVALID_INDEX] error and changes nothing else. *)
Theorem goForward_at_end_is_rejected config w :
  canGoForward (service w) = false ->
  let w' := step config w Call_goForward in
  settled_value (next_handle w) (settled w') = Some false /\
  service w'
  = push_navigationError
      {| type := INVALID_INDEX;
         message := "Cannot go forward, already at the end of history";
         originalError := None |} (service w) /\
  suspended w' = suspended w.
Proof.
  intros Hfwd. cbn. unfold call, goForward. cbn. rewrite Hfwd. cbn.
  rewrite Nat.eqb_refl. repeat split; reflexivity.
Qed.

Lemma goForward_at_end_is_rejected_witness :
  let w := new_World DEFAULT_HISTORY_CONFIG "/home" in
  settled_value 0 (settled (step DEFAULT_HISTORY_CONFIG w Call_goForward)) = Some false.
Proof.
  intros w.
  destruct (goForward_at_end_is_rejected DEFAULT_HISTORY_CONFIG w eq_refl) as (H & _).
  exact H.
Defined.

(** X2: [navigateToPath] with a path that is not in the history resolves to
    [false], emits one [INVALID_INDEX] error naming the path and changes
    nothing else; no router call is made. *)
Theorem navigateToPath_unknown_is_rejected config w path :
  hasPath path (service w) = false ->
  let w' := step config w (Call_navigateToPath path) in
  settled_value (next_handle w) (settled w') = Some false /\
  service w'
  = push_navigationError
      {| type := INVALID_INDEX;
         message := "Path not found in history: " +:+ path;
         originalError := None |} (service w) /\
  suspended w' = suspended w.
Proof.
  intros Hhas.
  assert (Hidx : Js.indexOf (_paths (service w)) path = -1).
  { apply indexOf_absent. intros Hin. apply includes_elem_of in Hin.
    unfold hasPath in Hhas. congruence. }
  cbn. unfold call, navigateToPath. cbn. rewrite Hidx. cbn.
  rewrite Nat.eqb_refl. repeat split; reflexivity.
Qed.

Lemma navigateToPath_unknown_is_rejected_witness :
  let w := new_World DEFAULT_HISTORY_CONFIG "/home" in
  settled_value 0
    (settled (step DEFAULT_HISTORY_CONFIG w (Call_navigateToPath "/nowhere")))
  = Some false.
Proof.
  intros w.
  destruct (navigateToPath_unknown_is_rejected DEFAULT_HISTORY_CONFIG w "/nowhere" eq_refl)
    as (H & _).
  exact H.
Defined.

(** X3: [navigateToIndex] with an index outside the stack resolves to
    [false] and emits one [INVALID_INDEX] error; it changes nothing else and
    suspends nothing, also while another navigation is in flight (the range
    check comes before the check for a navigation in flight). *)
Theorem out_of_range_index_is_rejected config w caller index :
  index < 0 \/ Js.length (_paths (service w)) <= index ->
  let w' := navigateToIndex config caller index w in
  settled w' = (caller, false) :: settled w /\
  (exists msg,
     service w'
     = push_navigationError
         {| type := INVALID_INDEX; message := msg; originalError := None |}
         (service w)) /\
  suspended w' = suspended w /\
  next_handle w' = next_handle w.
Proof.
  intros Hout. unfold navigateToIndex.
  assert (E : (index <? 0) || (Js.length (_paths (service w)) <=? index) = true).
  { apply orb_true_iff. destruct Hout; [left; apply Z.ltb_lt | right; apply Z.leb_le]; lia. }
  rewrite E. cbn. repeat split; eauto.
Qed.

Lemma out_of_range_index_is_rejected_witness :
  settled (navigateToIndex DEFAULT_HISTORY_CONFIG 9 1 index_past_end_world)
  = (9%nat, false) :: settled index_past_end_world.
Proof.
  destruct (out_of_range_index_is_rejected DEFAULT_HISTORY_CONFIG
              index_past_end_world 9 1) as (H & _).
  - right. vm_compute. discriminate.
  - exact H.
Defined.

(** ** Queries *)

(** X4: [hasPath] and [getPathAtIndex] agree with each other and with the
    stack: a path is in the history exactly when some index gives it, the
    index [indexOf] finds is the first one that does, and an index gives
    [undefined] exactly when it lies outside [0 .. historyLength - 1]. *)
Theorem hasPath_agrees_with_getPathAtIndex s path :
  (hasPath path s = true <-> exists i, getPathAtIndex i s = Some path) /\
  (hasPath path s = true ->
   getPathAtIndex (Js.indexOf (_paths s) path) s = Some path /\
   forall i, i < Js.indexOf (_paths s) path -> getPathAtIndex i s <> Some path) /\
  (forall i, getPathAtIndex i s = None <-> i < 0 \/ historyLength s <= i).
Proof.
  unfold hasPath, getPathAtIndex, historyLength, Js.get.
  split; [|split].
  - rewrite includes_elem_of. split.
    + intros Hin. apply indexOf_first in Hin as (Hr & Hl & _).
      exists (Js.indexOf (_paths s) path).
      destruct (Z.ltb_spec (Js.indexOf (_paths s) path) 0); [lia | exact Hl].
    + intros [i Hi]. destruct (i <? 0); [discriminate|].
      eapply list_elem_of_lookup_2, Hi.
  - intros Hin. apply includes_elem_of, indexOf_first in Hin as (Hr & Hl & Hf).
    split.
    + destruct (Z.ltb_spec (Js.indexOf (_paths s) path) 0); [lia | exact Hl].
    + intros i Hi. destruct (Z.ltb_spec i 0); [discriminate|].
      apply Hf. lia.
  - intros i. unfold Js.length. destruct (Z.ltb_spec i 0).
    + split; [left; lia | reflexivity].
    + rewrite lookup_ge_None. split; [right; lia | intros [?|?]; lia].
Qed.

Lemma hasPath_agrees_with_getPathAtIndex_witness :
  let s := service (run DEFAULT_HISTORY_CONFIG (new_World DEFAULT_HISTORY_CONFIG "/a")
                      [Location_urlChange "/b"; Location_urlChange "/a"]) in
  getPathAtIndex 0 s = Some "/a" /\ getPathAtIndex 3 s = None.
Proof.
  intros s.
  destruct (hasPath_agrees_with_getPathAtIndex s "/a") as (_ & H & Hnone).
  destruct (H eq_refl) as [Hget _].
  split; [exact Hget|]. apply Hnone. right. vm_compute. discriminate.
Defined.

(** ** Notifications of the location *)

(** X5: while an internal navigation is in flight, a location notification
    never touches the stack or the index; when its path differs from the
    one reported before, it clears both navigation flags and emits the
    state, otherwise it does nothing. *)
Theorem internal_echo_is_not_recorded config s path :
  isInternalNavigation s = true ->
  let s' := notify config s path in
  _paths s' = _paths s /\
  _currentIndex s' = _currentIndex s /\
  navigationPromise s' = navigationPromise s /\
  (previousPath s <> Some path ->
   isInternalNavigation s' = false /\
   _isNavigating s' = false /\
   previousPath s' = Some path /\
   currentState s' = Some (snapshot config s')) /\
  (previousPath s = Some path -> s' = set_location_path path s).
Proof.
  intros Hflag. unfold notify, onUrlChange. cbn.
  destruct (decide (previousPath s = Some path)) as [E|E].
  - repeat split; intros; try contradiction; reflexivity.
  - rewrite Hflag. cbn. repeat split; intros; try contradiction; reflexivity.
Qed.

Lemma internal_echo_is_not_recorded_witness :
  let w := run DEFAULT_HISTORY_CONFIG (new_World DEFAULT_HISTORY_CONFIG "/a")
             [Location_urlChange "/b"; Call_goBack] in
  _paths (notify DEFAULT_HISTORY_CONFIG (service w) "/a") = ["/a"; "/b"].
Proof.
  intros w.
  destruct (internal_echo_is_not_recorded DEFAULT_HISTORY_CONFIG (service w) "/a" eq_refl)
    as (H & _).
  exact H.
Defined.

(** X6: a notification that repeats the path of the one before it changes
    nothing: notifying the same path twice is the same as notifying it
    once, whatever the state. *)
Theorem repeated_notification_is_ignored config s path :
  notify config (notify config s path) path = notify config s path.
Proof.
  assert (Hfacts : previousPath (notify config s path) = Some path /\
                   location_path (notify config s path) = path).
  { unfold notify, onUrlChange. cbn.
    destruct (decide (previousPath s = Some path)) as [E|E]; [split; auto|].
    destruct (isInternalNavigation s); [split; reflexivity|].
    destruct (handleExternalNavigation_frame config path
                (set_previousPath (Some path) (set_location_path path s)))
      as (_ & _ & H3 & _ & _ & _ & H7).
    rewrite H3, H7. split; reflexivity. }
  destruct Hfacts as [Hprev Hloc].
  rewrite (notify_repeated config _ path Hprev).
  destruct (notify config s path). cbn in *. subst. reflexivity.
Qed.

(** ** clearHistory and the constructor *)

(** X7: [clearHistory] empties the stack and puts the index at 0, so that
    neither [goBack] nor [goForward] is possible; it leaves the navigation
    flags, the stored promise, the last reported path and the initialized
    mark alone.  What the next notification does therefore depends on what
    was left: for a new path while [isInternalNavigation] is not set it
    starts a history of that one entry; for a new path while the flag is
    set it is taken as an echo (the flags are cleared, the stack stays
    empty); for the path reported last before the clear it is ignored and
    the stack stays empty. *)
Theorem clearHistory_starts_over config s :
  0 < maxHistoryLength config ->
  let s' := clearHistory config s in
  (_paths s' = [] /\ _currentIndex s' = 0 /\
   canGoBack s' = false /\ canGoForward s' = false /\
   currentState s' = Some (snapshot config s')) /\
  (_isNavigating s' = _isNavigating s /\
   isInternalNavigation s' = isInternalNavigation s /\
   navigationPromise s' = navigationPromise s /\
   previousPath s' = previousPath s /\
   isInitialized s' = isInitialized s) /\
  (forall path,
     isInternalNavigation s = false -> previousPath s <> Some path ->
     _paths (notify config s' path) = [path] /\
     _currentIndex (notify config s' path) = 0) /\
  (forall path,
     previousPath s = Some path -> _paths (notify config s' path) = []) /\
  (forall path,
     isInternalNavigation s = true -> previousPath s <> Some path ->
     _paths (notify config s' path) = [] /\
     _currentIndex (notify config s' path) = 0 /\
     isInternalNavigation (notify config s' path) = false /\
     _isNavigating (notify config s' path) = false).
Proof.
  intros Hmax s'. split; [|split; [|split; [|split]]].
  - repeat split.
  - repeat split.
  - intros path Hflag Hprev.
    destruct (notify_external_facts config s' path ltac:(lia) Hflag Hprev)
      as (Hp & Hi & _).
    assert (Hp' : _paths (notify config s' path) = [path]).
    { rewrite Hp. apply lastn_all. cbn. lia. }
    split; [exact Hp'|]. rewrite Hi, Hp'. reflexivity.
  - intros path Hprev. rewrite notify_repeated by exact Hprev. reflexivity.
  - intros path Hflag Hprev. unfold notify, onUrlChange. cbn.
    destruct (decide (previousPath s = Some path)); [contradiction|].
    rewrite Hflag. repeat split.
Qed.

Lemma clearHistory_starts_over_witness :
  let s := service (run DEFAULT_HISTORY_CONFIG (new_World DEFAULT_HISTORY_CONFIG "/a")
                      [Location_urlChange "/b"]) in
  _paths (notify DEFAULT_HISTORY_CONFIG (clearHistory DEFAULT_HISTORY_CONFIG s) "/c")
  = ["/c"].
Proof.
  intros s.
  assert (Hmax : 0 < maxHistoryLength DEFAULT_HISTORY_CONFIG) by (cbn; lia).
  destruct (clearHistory_starts_over DEFAULT_HISTORY_CONFIG s Hmax) as (_ & _ & H & _).
  destruct (H "/c") as [Hp _]; [reflexivity | discriminate | exact Hp].
Defined.

(** X8: the constructor.  With [autoInitialize] the service starts with the
    current path (the location, or the default route when the location is
    empty) as its only entry, index 0, marked initialized, and has emitted
    that state; without it the stack is empty, the service is not marked
    initialized and the state is the initial one.  In both cases nothing is
    in flight and no error has been emitted. *)
Theorem constructor_initial_history config loc :
  0 < maxHistoryLength config ->
  let s := new_HistoryService config loc in
  (autoInitialize config = true ->
   _paths s = [Js.or loc (Js.or (defaultRoute config) "/")] /\
   _currentIndex s = 0 /\
   isInitialized s = true /\
   currentState s = Some (snapshot config s)) /\
  (autoInitialize config = false ->
   _paths s = [] /\ _currentIndex s = 0 /\
   isInitialized s = false /\
   currentState s = Some (createInitialState config)) /\
  (navigationPromise s = None /\ _isNavigating s = false /\
   isInternalNavigation s = false /\ previousPath s = None /\
   navigationError_log s = [] /\ location_path s = loc).
Proof.
  intros Hmax s. subst s. unfold new_HistoryService, initializeWithCurrentRoute.
  set (s0 := {| navigationPromise := None; isInternalNavigation := false;
                previousPath := None; isInitialized := false; _paths := [];
                _currentIndex := 0; _isNavigating := false;
                navigationState_log := [createInitialState config];
                navigationError_log := []; location_path := loc |}).
  assert (Hp : _paths (addToHistory config (currentPath config s0) s0)
               = [currentPath config s0]).
  { rewrite addToHistory_paths by lia. apply lastn_all. cbn. lia. }
  assert (Hi : _currentIndex (addToHistory config (currentPath config s0) s0) = 0).
  { rewrite addToHistory_currentIndex. cbn.
    destruct (Z.ltb_spec (maxHistoryLength config) (Js.length (@nil string) + 1));
      [unfold Js.length in *; cbn in *; lia | reflexivity]. }
  destruct (addToHistory_frame config (currentPath config s0) s0)
    as (F1 & F2 & F3 & F4 & F5 & F6 & F7 & F8).
  destruct (autoInitialize config); cbn -[addToHistory]; split; [|split| |split];
    try (intros; discriminate).
  - intros _. split; [exact Hp|]. split; [exact Hi|]. split; reflexivity.
  - rewrite F1, F2, F3, F5, F7, F8. repeat split.
  - intros _. repeat split.
  - repeat split.
Qed.

Lemma constructor_initial_history_witness :
  _paths (new_HistoryService DEFAULT_HISTORY_CONFIG "") = ["/"].
Proof.
  assert (Hmax : 0 < maxHistoryLength DEFAULT_HISTORY_CONFIG) by (cbn; lia).
  destruct (constructor_initial_history DEFAULT_HISTORY_CONFIG "" Hmax) as (H & _).
  destruct (H eq_refl) as (Hp & _). exact Hp.
Defined.

(** ** Eviction and the index *)

(** X9: when [addToHistory] is called with the index on an entry,
    the index still addresses the same entry afterwards as long as that
    entry was not among those dropped; when it was dropped, the index is on
    the oldest entry that is left. *)
Theorem eviction_keeps_the_current_entry config path s :
  0 < maxHistoryLength config ->
  0 <= _currentIndex s < Js.length (_paths s) ->
  let dropped := Js.length (_paths s) + 1 - maxHistoryLength config in
  let s' := addToHistory config path s in
  (dropped <= _currentIndex s ->
   getPathAtIndex (_currentIndex s') s' = getPathAtIndex (_currentIndex s) s) /\
  (_currentIndex s < dropped -> _currentIndex s' = 0).
Proof.
  intros Hmax Hidx dropped s'.
  pose proof (addToHistory_paths config path s ltac:(lia)) as Hp.
  pose proof (addToHistory_currentIndex config path s) as Hi.
  fold s' in Hp, Hi. unfold getPathAtIndex, Js.get. rewrite Hp, Hi.
  unfold lastn, Js.length in *. rewrite length_app. cbn [length].
  destruct (Z.ltb_spec (maxHistoryLength config) (Z.of_nat (length (_paths s)) + 1))
    as [Hev|Hno]; (split; [intros Hd | intros Hd; subst dropped; lia]).
  - destruct (Z.ltb_spec (0 `max` (_currentIndex s
                - (Z.of_nat (length (_paths s)) + 1 - maxHistoryLength config))) 0); [lia|].
    destruct (Z.ltb_spec (_currentIndex s) 0); [lia|].
    rewrite lookup_drop, lookup_app_l by lia. f_equal. subst dropped. lia.
  - destruct (Z.ltb_spec (_currentIndex s) 0); [lia|].
    rewrite lookup_drop, lookup_app_l by lia. f_equal. lia.
Qed.

Lemma eviction_keeps_the_current_entry_witness :
  let config := {| maxHistoryLength := 2; debugMode := false;
                   autoInitialize := true; defaultRoute := "/" |} in
  let s := service (run config (new_World config "/a") [Location_urlChange "/b"]) in
  let s' := addToHistory config "/c" s in
  getPathAtIndex (_currentIndex s') s' = Some "/b".
Proof.
  intros config s s'.
  assert (Hmax : 0 < maxHistoryLength config) by (cbn; lia).
  assert (Hidx : 0 <= _currentIndex s < Js.length (_paths s))
    by (vm_compute; split; [discriminate | reflexivity]).
  destruct (eviction_keeps_the_current_entry config "/c" s Hmax Hidx) as [H _].
  cbv zeta in H. fold s' in H. rewrite H; [reflexivity|].
  vm_compute. discriminate.
Defined.

(** ** Paths the service reads from the location *)

Lemma elem_of_drop_in {A} (x : A) n l : x ∈ drop n l -> x ∈ l.
Proof.
  intros H. apply list_elem_of_lookup in H as [i Hi].
  rewrite lookup_drop in Hi. eapply list_elem_of_lookup_2, Hi.
Qed.

Lemma elem_of_take_in {A} (x : A) n l : x ∈ take n l -> x ∈ l.
Proof.
  intros H. apply elem_of_take in H as (i & Hi & _).
  eapply list_elem_of_lookup_2, Hi.
Qed.

Lemma kept_history_subset s x : x ∈ kept_history s -> x ∈ _paths s.
Proof.
  unfold kept_history, Js.splice_from. destruct (_ <? _); [|auto].
  apply elem_of_take_in.
Qed.

(** Whatever the bound, [addToHistory] and [handleExternalNavigation] add
    no entry but [path]. *)
Lemma addToHistory_entries config path s x :
  x ∈ _paths (addToHistory config path s) -> x ∈ _paths s \/ x = path.
Proof.
  unfold addToHistory. cbn [_paths set_paths].
  destruct (maxHistoryLength config <? Js.length (_paths s ++ [path]));
    cbn [_paths set_paths set_currentIndex]; intros H.
  - unfold Js.splice_front in H. apply elem_of_drop_in in H.
    apply elem_of_app in H as [H|H]; [left; exact H|].
    right. apply list_elem_of_singleton in H. exact H.
  - apply elem_of_app in H as [H|H]; [left; exact H|].
    right. apply list_elem_of_singleton in H. exact H.
Qed.

Lemma handleExternalNavigation_entries config path s x :
  x ∈ _paths (handleExternalNavigation config path s) -> x ∈ _paths s \/ x = path.
Proof.
  unfold handleExternalNavigation, updateNavigationState, push_navigationState.
  cbn [_paths set_currentIndex]. intros H.
  apply addToHistory_entries in H as [H|H]; [left|right; exact H].
  apply kept_history_subset. unfold kept_history.
  destruct (_ <? _); exact H.
Qed.

(** X10: the path the service reads from the location is never empty (an
    empty location reads as the default route, an empty default route as
    ["/"]).  Hence [initialize] never navigates to the empty path, and
    neither the constructor nor the [popstate] handler puts an empty path
    on the stack. *)
Theorem paths_read_from_the_location_are_not_empty config s :
  currentPath config s <> "" /\
  (forall path, (initialize_start config path s).2 <> "") /\
  (forall loc, "" ∉ _paths (new_HistoryService config loc)) /\
  ("" ∉ _paths s -> "" ∉ _paths (handleBrowserHistoryChange config s)).
Proof.
  assert (Hcur : forall s0, currentPath config s0 <> "").
  { intros s0. unfold currentPath, Js.or at 1.
    destruct (String.eqb_spec (location_path s0) ""); [apply or_default_nonempty | assumption]. }
  split; [apply Hcur|]. split; [|split].
  - intros path. cbn. destruct path as [p|]; cbn.
    + unfold Js.or at 1. destruct (String.eqb_spec p ""); [|assumption].
      unfold Js.or at 1.
      destruct (String.eqb_spec (currentPath config s) ""); [|assumption].
      apply or_default_nonempty.
    + unfold Js.or at 1.
      destruct (String.eqb_spec (currentPath config s) ""); [|assumption].
      apply or_default_nonempty.
  - intros loc. unfold new_HistoryService, initializeWithCurrentRoute.
    destruct (autoInitialize config); cbn -[addToHistory]; [|apply not_elem_of_nil].
    intros H. apply addToHistory_entries in H as [H|H].
    + revert H. apply not_elem_of_nil.
    + symmetry in H. revert H. apply Hcur.
  - intros Hnot. unfold handleBrowserHistoryChange. destruct (negb _); [exact Hnot|].
    intros H. apply handleExternalNavigation_entries in H as [H|H]; [auto|].
    symmetry in H. revert H. apply Hcur.
Qed.

Lemma paths_read_from_the_location_are_not_empty_witness :
  "" ∉ _paths (handleBrowserHistoryChange DEFAULT_HISTORY_CONFIG
                 (new_HistoryService DEFAULT_HISTORY_CONFIG "")).
Proof.
  destruct (paths_read_from_the_location_are_not_empty DEFAULT_HISTORY_CONFIG
              (new_HistoryService DEFAULT_HISTORY_CONFIG "")) as (_ & _ & Hnew & H).
  apply H, Hnew.
Defined.

(** ** The popstate handler, again *)

Lemma lastn_snoc_shape {A} (m : nat) (l : list A) x :
  (0 < m)%nat -> lastn m (l ++ [x]) = lastn (m - 1) l ++ [x].
Proof.
  intros Hm. unfold lastn. rewrite length_app, drop_app. cbn [length].
  replace (length l + 1 - m - length l)%nat with 0%nat by lia.
  replace (length l + 1 - m)%nat with (length l - (m - 1))%nat by lia.
  reflexivity.
Qed.

Lemma indexOf_snoc_absent l x :
  x ∉ l -> Js.indexOf (l ++ [x]) x = Js.length l.
Proof.
  unfold Js.length. induction l as [|y l IH]; intros Hnot; cbn.
  - rewrite String.eqb_refl. reflexivity.
  - apply not_elem_of_cons in Hnot as [Hne Hnot].
    destruct (String.eqb_spec y x); [congruence|].
    rewrite (IH Hnot). destruct (Z.ltb_spec (Z.of_nat (length l)) 0); lia.
Qed.

(** X11: handling [popstate] twice for the same location is the same, for
    the stack and the index, as handling it once: the first handling makes
    the observed path an entry and puts the index on its first
    occurrence, which is where the second one finds it. *)
Theorem popstate_is_idempotent config s :
  0 < maxHistoryLength config ->
  let s1 := handleBrowserHistoryChange config s in
  let s2 := handleBrowserHistoryChange config s1 in
  currentPath config s1 ∈ _paths s1 /\
  _paths s2 = _paths s1 /\
  _currentIndex s2 = _currentIndex s1.
Proof.
  intros Hmax s1 s2.
  set (p := currentPath config s).
  assert (Hcur : currentPath config s1 = p).
  { unfold s1, handleBrowserHistoryChange. fold p.
    destruct (negb _); [reflexivity|].
    unfold currentPath.
    rewrite (proj2 (proj2 (proj2 (proj2 (proj2 (proj2
               (handleExternalNavigation_frame config p s))))))).
    reflexivity. }
  assert (Hfirst : p ∈ _paths s1 /\ _currentIndex s1 = Js.indexOf (_paths s1) p).
  { unfold s1, handleBrowserHistoryChange. fold p.
    destruct (Z.eqb_spec (Js.indexOf (_paths s) p) (-1)) as [Habs|Hin]; cbn [negb].
    - apply indexOf_absent in Habs.
      rewrite handleExternalNavigation_currentIndex.
      rewrite handleExternalNavigation_paths by lia.
      rewrite lastn_snoc_shape by lia.
      assert (Hnot : p ∉ lastn (Z.to_nat (maxHistoryLength config) - 1) (kept_history s)).
      { intros H. apply elem_of_drop_in, kept_history_subset in H. contradiction. }
      rewrite (indexOf_snoc_absent _ _ Hnot).
      split; [apply elem_of_app; right; left|].
      unfold Js.length. rewrite length_app. cbn [length]. lia.
    - cbn. split; [|reflexivity].
      apply dec_stable. intros Hnot. apply indexOf_absent in Hnot. contradiction. }
  destruct Hfirst as [Hin Hidx]. rewrite Hcur. split; [exact Hin|].
  unfold s2, handleBrowserHistoryChange. rewrite Hcur.
  destruct (Z.eqb_spec (Js.indexOf (_paths s1) p) (-1)) as [Habs|_]; cbn [negb].
  - apply indexOf_absent in Habs. contradiction.
  - cbn. split; [reflexivity | symmetry; exact Hidx].
Qed.

Lemma popstate_is_idempotent_witness :
  let s := set_location_path "/z" (new_HistoryService DEFAULT_HISTORY_CONFIG "/a") in
  let s1 := handleBrowserHistoryChange DEFAULT_HISTORY_CONFIG s in
  _paths (handleBrowserHistoryChange DEFAULT_HISTORY_CONFIG s1) = ["/a"; "/z"].
Proof.
  intros s s1.
  assert (Hmax : 0 < maxHistoryLength DEFAULT_HISTORY_CONFIG) by (cbn; lia).
  destruct (popstate_is_idempotent DEFAULT_HISTORY_CONFIG s Hmax) as (_ & H & _).
  cbv zeta in H. fold s1 in H. rewrite H. reflexivity.
Defined.

(** ** The demo's navigation component *)

Lemma slice_last_five {A} (l : list A) : Js.slice_from (-5) l = lastn 5 l.
Proof. unfold Js.slice_from, Js.length, lastn. cbn. f_equal. lia. Qed.

(** X12: the navigation component of the demo keeps the errors it is sent
    in order and never more than five of them: after any run of errors it
    holds the last five of what it held followed by what it was sent; the
    state it holds is untouched by errors, and its [clearHistory] empties
    both its errors and the history of the service. *)
Theorem demo_keeps_the_last_five_errors config n errors s :
  (length (nav_navigationErrors n) <= 5)%nat ->
  let n' := foldl Navigation_on_error n errors in
  nav_navigationErrors n' = lastn 5 (nav_navigationErrors n ++ errors) /\
  (length (nav_navigationErrors n') <= 5)%nat /\
  nav_navigationState n' = nav_navigationState n /\
  nav_navigationErrors (Navigation_clearHistory config n' s).1 = [] /\
  _paths (Navigation_clearHistory config n' s).2 = [].
Proof.
  intros Hlen n'.
  assert (H : nav_navigationErrors n' = lastn 5 (nav_navigationErrors n ++ errors) /\
              nav_navigationState n' = nav_navigationState n).
  { subst n'. revert n Hlen. induction errors as [|e errors IH]; intros n Hlen.
    - cbn [foldl]. rewrite app_nil_r, lastn_all by exact Hlen. split; reflexivity.
    - cbn [foldl]. destruct (IH (Navigation_on_error n e)) as [IH1 IH2].
      + cbn [nav_navigationErrors Navigation_on_error].
        rewrite slice_last_five. unfold lastn. rewrite length_drop. lia.
      + rewrite IH1, IH2. cbn [nav_navigationErrors nav_navigationState Navigation_on_error].
        rewrite slice_last_five, lastn_app, <- app_assoc.
        split; reflexivity. }
  destruct H as [H1 H2]. split; [exact H1|]. split; [|split; [exact H2|split; reflexivity]].
  rewrite H1. unfold lastn. rewrite length_drop. lia.
Qed.

Lemma demo_keeps_the_last_five_errors_witness :
  let e := {| type := INVALID_INDEX; message := "m"; originalError := None |} in
  length (nav_navigationErrors
            (foldl Navigation_on_error new_Navigation [e; e; e; e; e; e; e])) = 5%nat.
Proof.
  intros e.
  destruct (demo_keeps_the_last_five_errors DEFAULT_HISTORY_CONFIG new_Navigation
              [e; e; e; e; e; e; e] (new_HistoryService DEFAULT_HISTORY_CONFIG ""))
    as (H & _).
  - cbn. lia.
  - cbv zeta in H. rewrite H. reflexivity.
Defined.

(** ** Invariants of the service along every run *)

Section ServiceInvariant.

Variable config : HistoryConfig.
Variable P : Service -> Prop.

Hypothesis P_emitError : forall s t m o, P s -> P (emitError t m o s).
Hypothesis P_set_navigationPromise : forall s v, P s -> P (set_navigationPromise v s).
Hypothesis P_performNavigation_start :
  forall s index, P s -> 0 <= index -> P (performNavigation_start config index s).1.
Hypothesis P_performNavigation_resume :
  forall s target r, P s -> P (performNavigation_resume target r s).1.
Hypothesis P_initialize_start :
  forall s path, P s -> P (initialize_start config path s).1.
Hypothesis P_initialize_resume :
  forall s initialPath r, P s -> P (initialize_resume config initialPath r s).1.
Hypothesis P_clearHistory : forall s, P s -> P (clearHistory config s).
Hypothesis P_notify : forall s path, P s -> P (notify config s path).
Hypothesis P_popstate :
  forall s path, P s -> P (handleBrowserHistoryChange config (set_location_path path s)).

Lemma invariant_call_performNavigation w caller index :
  P (service w) -> 0 <= index ->
  P (service (call_performNavigation config caller index w)).
Proof.
  intros HP Hi. cbn. apply P_set_navigationPromise.
  apply (P_performNavigation_start (service w) index HP Hi).
Qed.

Lemma invariant_navigateToIndex w caller index :
  P (service w) -> P (service (navigateToIndex config caller index w)).
Proof.
  intros HP. unfold navigateToIndex.
  destruct (Z.ltb_spec index 0); cbn [orb]; [cbn; apply P_emitError, HP|].
  destruct (Z.leb_spec (Js.length (_paths (service w))) index);
    [cbn; apply P_emitError, HP|].
  destruct (navigationPromise (service w)); [cbn; apply P_emitError, HP|].
  apply invariant_call_performNavigation; assumption.
Qed.

Lemma invariant_resume_waiters_fold waiting :
  forall w,
    Forall (handles_below (next_handle w)) waiting ->
    P (service w) -> P (service (foldl (resume_waiter config) w waiting)).
Proof.
  induction waiting as [|k waiting IH]; intros w Hall HP; [exact HP|].
  apply Forall_cons in Hall as [Hk Hall]. cbn [foldl]. apply IH.
  - eapply Forall_handles_below_mono; [|exact Hall]. destruct k; cbn; lia.
  - destruct k; cbn [resume_waiter]; auto.
    apply invariant_call_performNavigation; [exact HP | apply Hk].
Qed.

Lemma invariant_step w e :
  well_formed config w -> P (service w) -> P (service (step config w e)).
Proof.
  intros Hwf HP. destruct e; cbn [step].
  - unfold call, goBack. cbn. destruct (negb _); [cbn; apply P_emitError, HP|].
    apply invariant_navigateToIndex, HP.
  - unfold call, goForward. cbn. destruct (negb _); [cbn; apply P_emitError, HP|].
    apply invariant_navigateToIndex, HP.
  - unfold call, navigateToPath. cbn. destruct (_ =? _); [cbn; apply P_emitError, HP|].
    apply invariant_navigateToIndex, HP.
  - cbn. apply (P_initialize_start (service w) path HP).
  - cbn. apply (P_initialize_start (service w) None HP).
  - cbn. apply P_clearHistory, HP.
  - cbn. apply (P_notify (service w) path HP).
  - cbn. apply P_popstate, HP.
  - unfold router_settles.
    destruct (extract _ _) as [[k rest]|] eqn:E; [|exact HP].
    apply extract_Some in E as (l1 & l2 & Hl & -> & _ & _).
    destruct k as [caller self targetPath| |caller initialPath]; [|exact HP|].
    + pose proof (P_performNavigation_resume (service w) targetPath r HP) as HP1.
      destruct (performNavigation_resume targetPath r (service w)) as [s1 ret].
      unfold resume_waiters. apply invariant_resume_waiters_fold; [|exact HP1].
      cbn. apply Forall_filter_keeps.
      destruct Hwf as [_ _ Hb _ _]. rewrite Hl in Hb.
      apply Forall_app in Hb as [H1 H2]. apply Forall_cons in H2 as [_ H2].
      apply Forall_app. auto.
    + pose proof (P_initialize_resume (service w) initialPath r HP) as HP1.
      destruct (initialize_resume config initialPath r (service w)) as [s1 ret].
      exact HP1.
Qed.

Lemma invariant_reachable w :
  (forall loc, P (service (new_World config loc))) ->
  reachable config w -> P (service w).
Proof.
  intros Hnew Hr. induction Hr as [loc|w e Hr IH]; [apply Hnew|].
  apply invariant_step; [apply reachable_well_formed, Hr | exact IH].
Qed.

End ServiceInvariant.

Lemma handleExternalNavigation_log config path s :
  navigationState_log (handleExternalNavigation config path s)
  = snapshot config (handleExternalNavigation config path s)
      :: navigationState_log s.
Proof.
  unfold handleExternalNavigation at 1.
  unfold updateNavigationState, push_navigationState, set_currentIndex.
  cbn -[addToHistory handleExternalNavigation]. f_equal.
  match goal with
  | |- context [addToHistory config path ?x] =>
      rewrite (proj1 (proj2 (proj2 (proj2 (proj2 (proj2
                 (addToHistory_frame config path x)))))))
  end.
  destruct (_ <? _); reflexivity.
Qed.

Lemma snapshot_consistent config s : consistent_state (snapshot config s).
Proof.
  repeat split. cbn. unfold currentPath, Js.or at 1.
  destruct (String.eqb_spec (location_path s) ""); [apply or_default_nonempty | assumption].
Qed.

Lemma handleExternalNavigation_index_nonneg config path s :
  0 < maxHistoryLength config ->
  0 <= _currentIndex (handleExternalNavigation config path s).
Proof.
  intros Hmax. rewrite handleExternalNavigation_currentIndex.
  rewrite handleExternalNavigation_paths by lia.
  rewrite lastn_snoc_shape by lia. unfold Js.length. rewrite length_app.
  cbn [length]. lia.
Qed.

(** X13: in every reachable world the history holds at most
    [maxHistoryLength] entries (none at all when the bound is not
    positive), and with a positive bound [currentIndex] is never
    negative. *)
Theorem history_stays_within_the_bound config w :
  reachable config w ->
  historyLength (service w) <= Z.max 0 (maxHistoryLength config) /\
  (0 < maxHistoryLength config ->
   historyLength (service w) <= maxHistoryLength config /\
   0 <= _currentIndex (service w)).
Proof.
  intros Hr. pose proof (reachable_well_formed config w Hr) as Hwf.
  split; [apply Hwf|]. intros Hmax. split; [pose proof (wf_length _ _ Hwf); unfold historyLength; lia|].
  apply (invariant_reachable config (fun s => 0 <= _currentIndex s)); auto.
  - intros s target r H. destruct r as [[|]|error]; exact H.
  - intros s initialPath r H. destruct r as [[|]|error]; cbn; auto; lia.
  - intros s H. cbn. lia.
  - intros s path H. unfold notify, onUrlChange. cbn.
    destruct (decide _); [exact H|].
    destruct (isInternalNavigation s); [exact H|].
    apply handleExternalNavigation_index_nonneg, Hmax.
  - intros s path H. unfold handleBrowserHistoryChange.
    destruct (Z.eqb_spec (Js.indexOf (_paths (set_location_path path s))
                (currentPath config (set_location_path path s))) (-1)); cbn [negb].
    + apply handleExternalNavigation_index_nonneg, Hmax.
    + cbn.
      destruct (indexOf_range (_paths s) (currentPath config (set_location_path path s)));
        [contradiction | lia].
  - intros loc. cbn. unfold new_HistoryService, initializeWithCurrentRoute.
    destruct (autoInitialize config); cbn -[addToHistory]; [|lia].
    rewrite addToHistory_currentIndex. destruct (_ <? _); cbn; lia.
Qed.

Lemma history_stays_within_the_bound_witness :
  let config := {| maxHistoryLength := 2; debugMode := false;
                   autoInitialize := true; defaultRoute := "/" |} in
  historyLength
    (service (run config (new_World config "/a")
                [Location_urlChange "/b"; Location_urlChange "/c"; Call_goBack]))
  <= 2.
Proof.
  intros config.
  destruct (history_stays_within_the_bound config
              (run config (new_World config "/a")
                 [Location_urlChange "/b"; Location_urlChange "/c"; Call_goBack]))
    as [_ H].
  - apply run_reachable, reachable_new.
  - apply H. cbn. lia.
Defined.

(** X14: every state the service has emitted, in any reachable world,
    agrees with itself: [historyLength] is the length of [paths],
    [canGoBack] and [canGoForward] are what [currentIndex] and that length
    give, and [currentPath] is not empty; and there is always a current
    state. *)
Theorem emitted_states_are_consistent config w :
  reachable config w ->
  Forall consistent_state (navigationState_log (service w)) /\
  exists st, currentState (service w) = Some st.
Proof.
  intros Hr.
  assert (H : Forall consistent_state (navigationState_log (service w)) /\
              navigationState_log (service w) <> []).
  { apply (invariant_reachable config
             (fun s => Forall consistent_state (navigationState_log s) /\
                       navigationState_log s <> [])); auto.
    - intros s index [H1 H2] _. cbn. split; [|discriminate].
      constructor; [|exact H1].
      apply (snapshot_consistent config
               (set_currentIndex index
                  (set_isInternalNavigation true (set_isNavigating true s)))).
    - intros s target r H. destruct r as [[|]|error]; exact H.
    - intros s path [H1 H2]. cbn. split; [|discriminate].
      constructor; [|exact H1].
      apply (snapshot_consistent config
               (set_isInternalNavigation true (set_isNavigating true s))).
    - intros s initialPath r [H1 H2]. destruct r as [[|]|error]; cbn -[addToHistory];
        try (split; assumption).
      split; [|discriminate]. constructor.
      + apply (snapshot_consistent config
                 (set_isInitialized true
                    (set_currentIndex 0 (addToHistory config initialPath (set_paths [] s))))).
      + rewrite (proj1 (proj2 (proj2 (proj2 (proj2 (proj2
                   (addToHistory_frame config initialPath (set_paths [] s)))))))).
        exact H1.
    - intros s [H1 H2]. cbn. split; [|discriminate]. constructor; [|exact H1].
      apply (snapshot_consistent config (set_currentIndex 0 (set_paths [] s))).
    - intros s path [H1 H2]. unfold notify, onUrlChange. cbn.
      destruct (decide _); [split; assumption|].
      destruct (isInternalNavigation s).
      + cbn. split; [|discriminate]. constructor; [|exact H1].
        apply (snapshot_consistent config
                 (set_isNavigating false
                    (set_isInternalNavigation false
                       (set_previousPath (Some path) (set_location_path path s))))).
      + rewrite handleExternalNavigation_log. split; [|discriminate].
        constructor; [apply snapshot_consistent | exact H1].
    - intros s path [H1 H2]. unfold handleBrowserHistoryChange.
      destruct (negb _).
      + cbn. split; [|discriminate]. constructor; [|exact H1].
        apply (snapshot_consistent config
                 (set_currentIndex
                    (Js.indexOf (_paths s) (currentPath config (set_location_path path s)))
                    (set_location_path path s))).
      + rewrite handleExternalNavigation_log. split; [|discriminate].
        constructor; [apply snapshot_consistent | exact H1].
    - intros loc. cbn. unfold new_HistoryService, initializeWithCurrentRoute.
      assert (H0 : consistent_state (createInitialState config)).
      { repeat split. cbn. apply or_default_nonempty. }
      destruct (autoInitialize config); cbn -[addToHistory];
        (split; [|discriminate]); [|constructor; [exact H0 | constructor]].
      constructor.
      + match goal with
        | |- consistent_state ?st =>
            match st with
            | context [addToHistory config ?p ?s0] =>
                apply (snapshot_consistent config (addToHistory config p s0))
            end
        end.
      + match goal with
        | |- context [addToHistory config ?p ?s0] =>
            rewrite (proj1 (proj2 (proj2 (proj2 (proj2 (proj2
                       (addToHistory_frame config p s0)))))))
        end.
        constructor; [exact H0 | constructor]. }
  destruct H as [H1 H2]. split; [exact H1|].
  unfold currentState. destruct (navigationState_log (service w)) as [|st l];
    [contradiction | eauto].
Qed.

Lemma emitted_states_are_consistent_witness :
  Forall consistent_state (navigationState_log (service index_past_end_world)).
Proof.
  destruct (emitted_states_are_consistent DEFAULT_HISTORY_CONFIG index_past_end_world)
    as [H _].
  - repeat apply run_reachable. apply reachable_new.
  - exact H.
Defined.

(** X15: once the service is marked initialized it stays so: no call and
    no notification, [clearHistory] and a failed [initialize] included,
    takes the mark away. *)
Theorem initialized_is_never_unset config w e :
  well_formed config w ->
  isInitialized (service w) = true ->
  isInitialized (service (step config w e)) = true.
Proof.
  intros Hwf Hinit.
  apply (invariant_step config (fun s => isInitialized s = true)); auto.
  - intros s target r H. destruct r as [[|]|error]; exact H.
  - intros s initialPath r H. destruct r as [[|]|error]; cbn; auto.
  - intros s path H. unfold notify, onUrlChange. cbn.
    destruct (decide _); [exact H|].
    destruct (isInternalNavigation s); [exact H|].
    rewrite (proj1 (proj2 (proj2 (proj2
               (handleExternalNavigation_frame config path
                  (set_previousPath (Some path) (set_location_path path s))))))).
    exact H.
  - intros s path H. unfold handleBrowserHistoryChange.
    destruct (negb _); [exact H|].
    rewrite (proj1 (proj2 (proj2 (proj2
               (handleExternalNavigation_frame config _ (set_location_path path s)))))).
    exact H.
Qed.

Lemma initialized_is_never_unset_witness :
  isInitialized
    (service (step DEFAULT_HISTORY_CONFIG (new_World DEFAULT_HISTORY_CONFIG "/a")
                Call_clearHistory)) = true.
Proof.
  apply (initialized_is_never_unset DEFAULT_HISTORY_CONFIG
           (new_World DEFAULT_HISTORY_CONFIG "/a") Call_clearHistory).
  - apply new_World_well_formed.
  - reflexivity.
Defined.

(** ** Index navigation from an idle state *)

(** X16: a [goBack], [goForward] or [navigateToPath] that targets a valid
    index while no navigation is in flight takes effect at once: before
    the router has answered, [currentIndex] is the target, both navigation
    flags are set, the emitted state shows [isNavigating], the router has
    been called with the entry at the target, no error is emitted and the
    promise of the call is still pending. *)
Theorem idle_request_moves_the_index_at_once config w e index :
  requests_index e (service w) index ->
  0 <= index < Js.length (_paths (service w)) ->
  navigationPromise (service w) = None ->
  let w1 := step config w e in
  let self := S (next_handle w) in
  (_currentIndex (service w1) = index /\
   _paths (service w1) = _paths (service w) /\
   _isNavigating (service w1) = true /\
   isInternalNavigation (service w1) = true /\
   navigationPromise (service w1) = Some self) /\
  (exists st, currentState (service w1) = Some st /\
              st_currentIndex st = index /\ st_isNavigating st = true) /\
  (exists target,
     Js.get (_paths (service w)) index = Some target /\
     suspended w1
     = suspended w ++ [in_performNavigation (next_handle w) self (Some target)]) /\
  navigationError_log (service w1) = navigationError_log (service w) /\
  settled w1 = settled w.
Proof.
  intros Hreq Hrange Hidle w1 self.
  assert (Hw1 : w1 = call_performNavigation config (next_handle w) index (new_promise w).2).
  { unfold w1. rewrite (request_reaches_navigateToIndex config w e index Hreq).
    apply (navigateToIndex_idle config (new_promise w).2); assumption. }
  destruct (get_in_range (_paths (service w)) index Hrange) as [target Ht].
  rewrite Hw1. cbn. rewrite Ht. repeat split; eauto.
Qed.

Lemma idle_request_moves_the_index_at_once_witness :
  let w := run DEFAULT_HISTORY_CONFIG (new_World DEFAULT_HISTORY_CONFIG "/a")
             [Location_urlChange "/b"; Location_urlChange "/c"] in
  _currentIndex (service (step DEFAULT_HISTORY_CONFIG w (Call_navigateToPath "/a"))) = 0.
Proof.
  intros w.
  destruct (idle_request_moves_the_index_at_once DEFAULT_HISTORY_CONFIG w
              (Call_navigateToPath "/a") 0) as ((H & _) & _).
  - split; [reflexivity | discriminate].
  - vm_compute. split; [discriminate | reflexivity].
  - reflexivity.
  - exact H.
Defined.



(** ** initialize and reset, from the call to the answer of the router *)

(** X18: [initialize(path)] carried out by the router (the location
    reports the resolved path, then [navigateByUrl] resolves to [true])
    leaves the history with that path as its only entry: the report of the
    location is taken as the echo of the call, not as a new entry.  The
    call resolves to [true], both flags are cleared and nothing new is
    left suspended.  When the router fails instead, the call resolves to
    [false] and the stack and the index are the ones before the call.
    [reset()] is [initialize()] without argument. *)
Theorem initialize_carried_out_by_the_router config w path :
  reachable config w ->
  0 < maxHistoryLength config ->
  let caller := next_handle w in
  let resolved := (initialize_start config path (service w)).2 in
  (let w3 := run config w [Call_initialize path; Location_urlChange resolved;
                           Router_settles caller (Resolved true)] in
   _paths (service w3) = [resolved] /\
   _currentIndex (service w3) = 0 /\
   isInitialized (service w3) = true /\
   _isNavigating (service w3) = false /\
   isInternalNavigation (service w3) = false /\
   location_path (service w3) = resolved /\
   settled w3 = (caller, true) :: settled w /\
   suspended w3 = suspended w) /\
  (forall r, r <> Resolved true ->
   let w2 := run config w [Call_initialize path; Router_settles caller r] in
   _paths (service w2) = _paths (service w) /\
   _currentIndex (service w2) = _currentIndex (service w) /\
   _isNavigating (service w2) = false /\
   isInternalNavigation (service w2) = false /\
   settled w2 = (caller, false) :: settled w /\
   suspended w2 = suspended w) /\
  step config w Call_reset = step config w (Call_initialize None).
Proof.
  intros Hreach Hmax caller resolved.
  pose proof (reachable_well_formed config w Hreach) as Hwf.
  assert (Hfresh : Forall (fun k => awaits_router caller k = false) (suspended w))
    by (apply (fresh_router_handle config), Hwf).
  assert (Hextract : extract (awaits_router caller)
                       (suspended w ++ [in_initialize caller resolved])
                     = Some (in_initialize caller resolved, suspended w)).
  { apply extract_last; [exact Hfresh | cbn; apply Nat.eqb_refl]. }
  split; [|split; [|reflexivity]].
  - unfold run. cbn [foldl step].
    change (call (initialize config path) w)
      with (initialize config path caller (new_promise w).2).
    set (w1 := initialize config path caller (new_promise w).2).
    destruct (onUrlChange_internal config resolved (service w1) eq_refl)
      as (_ & _ & _ & Hloc).
    cbv zeta in Hloc.
    change (onUrlChange config resolved (set_location_path resolved (service w1)))
      with (service (location_urlChange config resolved w1)) in Hloc.
    set (we := location_urlChange config resolved w1) in *.
    assert (Hs1 : suspended we = suspended w ++ [in_initialize caller resolved])
      by reflexivity.
    assert (Hset : settled we = settled w) by reflexivity.
    clearbody we. clear w1. clearbody resolved.
    assert (Hp : _paths (addToHistory config resolved (set_paths [] (service we)))
                 = [resolved]).
    { rewrite addToHistory_paths by lia. apply lastn_all. cbn. lia. }
    destruct (addToHistory_frame config resolved (set_paths [] (service we)))
      as (_ & _ & _ & _ & _ & _ & _ & F8).
    unfold router_settles. rewrite Hs1, Hextract.
    cbn -[addToHistory]. rewrite Hp, F8, Hset. cbn. rewrite Hloc. repeat split.
  - intros r Hr. unfold run. cbn [foldl step].
    change (call (initialize config path) w)
      with (initialize config path caller (new_promise w).2).
    set (w1 := initialize config path caller (new_promise w).2).
    assert (Hs1 : suspended w1 = suspended w ++ [in_initialize caller resolved])
      by reflexivity.
    unfold router_settles. rewrite Hs1, Hextract.
    destruct r as [[|]|error]; [congruence| |]; cbn; repeat split.
Qed.

Lemma initialize_carried_out_by_the_router_witness :
  let w := run DEFAULT_HISTORY_CONFIG (new_World DEFAULT_HISTORY_CONFIG "/a")
             [Location_urlChange "/b"] in
  _paths (service (run DEFAULT_HISTORY_CONFIG w
                     [Call_initialize (Some "/x"); Location_urlChange "/x";
                      Router_settles 0 (Resolved true)])) = ["/x"].
Proof.
  intros w.
  destruct (initialize_carried_out_by_the_router DEFAULT_HISTORY_CONFIG w (Some "/x"))
    as (H & _).
  - apply run_reachable, reachable_new.
  - cbn. lia.
  - destruct H as (Hp & _). exact Hp.
Defined.

(** ** Several requests queued behind one navigation *)

Lemma started_performs n paths waiting k :
  k ∈ started n paths waiting ->
  exists caller self target, k = in_performNavigation caller self target.
Proof.
  revert n. induction waiting as [|k' waiting IH]; intros n H.
  - exfalso. revert H. apply not_elem_of_nil.
  - destruct k'; cbn [started] in H; eauto.
    apply elem_of_cons in H as [->|H]; eauto.
Qed.

Lemma resume_waiters_fold_started config waiting :
  forall w,
    let w' := foldl (resume_waiter config) w waiting in
    let new := started (next_handle w) (_paths (service w)) waiting in
    suspended w' = suspended w ++ new /\
    next_handle w' = (next_handle w + length new)%nat /\
    navigationPromise (service w')
    = match last new with
      | Some (in_performNavigation _ self _) => Some self
      | _ => navigationPromise (service w)
      end.
Proof.
  induction waiting as [|k waiting IH]; intros w; cbn [foldl started].
  - cbn. rewrite app_nil_r. repeat split. lia.
  - destruct k as [c s t|caller awaited index|c i]; cbn [resume_waiter];
      try apply IH.
    destruct (IH (call_performNavigation config caller index w)) as (H1 & H2 & H3).
    cbv zeta in H1, H2, H3.
    destruct (call_performNavigation_service config caller index w)
      as (Hp & _ & Hn & _ & _ & _ & Hs & Hh).
    rewrite Hp, Hh in *. rewrite Hs in H1. rewrite Hn in H3.
    cbv zeta. rewrite H1, H2, H3. split; [rewrite <- app_assoc; reflexivity|].
    split; [cbn [length]; lia|].
    rewrite last_cons.
    destruct (last (started (S (next_handle w)) (_paths (service w)) waiting))
      as [k|] eqn:Hlast; [|reflexivity].
    apply last_Some_elem_of, started_performs in Hlast as (c & self & t & ->).
    reflexivity.
Qed.

Lemma started_length p n paths waiting :
  Forall (fun k => awaits_promise p k = true) waiting ->
  length (started n paths waiting) = length waiting.
Proof.
  revert n. induction waiting as [|k waiting IH]; intros n Hall; [reflexivity|].
  apply Forall_cons in Hall as [Hk Hall].
  destruct k; cbn in Hk; try discriminate. cbn. f_equal. apply IH, Hall.
Qed.

(** X19: when the navigation in flight settles, every request that was
    queued behind it starts at once, in the order of arrival and each with
    the index it was given: as many router calls are then pending as there
    were requests queued, nobody is left waiting for the settled promise,
    and the service keeps the promise of the last one only. *)
Theorem queued_requests_all_start_together config w inflight p target r :
  reachable config w ->
  in_performNavigation inflight p target ∈ suspended w ->
  let waiting := filter (fun k => awaits_promise p k = true) (suspended w) in
  let new := started (next_handle w) (_paths (service w)) waiting in
  let w' := step config w (Router_settles p r) in
  (exists l1 l2,
     suspended w = l1 ++ in_performNavigation inflight p target :: l2 /\
     suspended w'
     = filter (fun k => awaits_promise p k <> true) (l1 ++ l2) ++ new) /\
  length new = length waiting /\
  next_handle w' = (next_handle w + length waiting)%nat /\
  navigationPromise (service w')
  = match last new with
    | Some (in_performNavigation _ self _) => Some self
    | _ => None
    end /\
  _paths (service w') = _paths (service w).
Proof.
  intros Hreach Hin waiting new w'.
  pose proof (reachable_well_formed config w Hreach) as Hwf.
  destruct (extract_inflight config w inflight p target Hwf Hin) as (l1 & l2 & Hl & He).
  destruct (router_settles_perform config w inflight p target l1 l2 r Hwf Hl He)
    as [Hstep _].
  cbv zeta in Hstep.
  destruct (performNavigation_resume_facts target r (service w))
    as (_ & Hp & _ & _ & _ & Hn).
  set (finished := performNavigation_resume target r (service w)) in *.
  assert (Hwaiting : waiting = filter (fun k => awaits_promise p k = true) (l1 ++ l2)).
  { unfold waiting. rewrite Hl, !filter_app, filter_cons_False; [reflexivity|].
    cbn. discriminate. }
  assert (Hlen : length new = length waiting).
  { apply (started_length p). unfold waiting.
    apply Forall_forall. intros k Hk. apply list_elem_of_filter in Hk. apply Hk. }
  unfold w'. cbn [step]. rewrite Hstep. unfold resume_waiters.
  cbn [suspended settle with_suspended with_service]. rewrite <- Hwaiting.
  match goal with
  | |- context [foldl (resume_waiter config) ?w0 waiting] =>
      destruct (resume_waiters_fold_started config waiting w0) as (H1 & H2 & H3)
  end.
  cbv zeta in H1, H2, H3.
  cbn [suspended next_handle service settle with_suspended with_service] in H1, H2, H3.
  rewrite Hp in H1, H2, H3. fold new in H1, H2, H3. rewrite Hn in H3.
  split; [exists l1, l2; split; [exact Hl | exact H1]|].
  split; [exact Hlen|]. split; [rewrite H2, Hlen; reflexivity|].
  split; [exact H3|].
  match goal with
  | |- context [foldl (resume_waiter config) ?w0 waiting] =>
      rewrite (proj1 (resume_waiters_fold_paths config waiting w0))
  end.
  exact Hp.
Qed.

Lemma queued_requests_all_start_together_witness :
  let w := run DEFAULT_HISTORY_CONFIG (new_World DEFAULT_HISTORY_CONFIG "/a")
             [Location_urlChange "/b"; Location_urlChange "/c";
              Call_goBack; Call_goBack; Call_goForward] in
  let w' := step DEFAULT_HISTORY_CONFIG w (Router_settles 1 (Resolved true)) in
  next_handle w' = 6%nat /\ navigationPromise (service w') = Some 5%nat.
Proof.
  intros w w'.
  destruct (queued_requests_all_start_together DEFAULT_HISTORY_CONFIG w
              0%nat 1%nat (Some "/b") (Resolved true)) as (_ & _ & H1 & H2 & _).
  - apply run_reachable, reachable_new.
  - apply (proj2 (list_elem_of_In _ _)). vm_compute. left. reflexivity.
  - split; [exact H1 | exact H2].
Defined.

(** * The earlier, synchronous version *)

Lemma legacy_notify_external s path :
  Legacy.isInternalNavigation s = false ->
  Legacy.previousPath s <> Some path ->
  let s' := Legacy.notify s path in
  Legacy._paths s'
  = (if Legacy._currentIndex s <? Js.length (Legacy._paths s) - 1
     then Js.splice_from (Legacy._currentIndex s + 1) (Legacy._paths s)
     else Legacy._paths s) ++ [path] /\
  Legacy._currentIndex s' = Js.length (Legacy._paths s') - 1 /\
  Legacy.isInternalNavigation s' = false /\
  Legacy.previousPath s' = Some path /\
  Legacy.location_path s' = path.
Proof.
  intros Hflag Hprev. unfold Legacy.notify, Legacy.onUrlChange. cbn.
  destruct (decide (Legacy.previousPath s = Some path)); [contradiction|].
  rewrite Hflag. unfold Legacy.handleExternalNavigation. cbn.
  destruct (_ <? _); cbn; repeat split; auto.
Qed.

(** X20: the earlier service has no bound: after any number of external
    notifications, none repeating the path before it, on a new service the
    history holds every one of them, in order, with the index on the
    last. *)
Theorem legacy_history_is_unbounded loc paths :
  no_repeat None paths ->
  let s' := foldl Legacy.notify (Legacy.new_HistoryService loc) paths in
  Legacy._paths s' = paths /\
  Legacy.historyLength s' = Js.length paths /\
  (paths <> [] -> Legacy._currentIndex s' = Js.length paths - 1).
Proof.
  intros Hrep s'.
  assert (H : forall ps s,
             Legacy.isInternalNavigation s = false ->
             Js.length (Legacy._paths s) - 1 <= Legacy._currentIndex s ->
             no_repeat (Legacy.previousPath s) ps ->
             let s' := foldl Legacy.notify s ps in
             Legacy._paths s' = Legacy._paths s ++ ps /\
             (ps <> [] ->
              Legacy._currentIndex s' = Js.length (Legacy._paths s') - 1)).
  { clear. induction ps as [|p ps IH]; intros s Hflag Hend Hrep; cbn [foldl].
    - rewrite app_nil_r. split; [reflexivity | congruence].
    - destruct Hrep as [Hprev Hrep].
      destruct (legacy_notify_external s p Hflag Hprev) as (Hp & Hi & Hf & Hr & _).
      cbv zeta in Hp, Hi, Hf, Hr.
      destruct (Z.ltb_spec (Legacy._currentIndex s)
                  (Js.length (Legacy._paths s) - 1)); [lia|].
      destruct (IH (Legacy.notify s p)) as [IHp IHi].
      + exact Hf.
      + rewrite Hi. lia.
      + rewrite Hr. exact Hrep.
      + cbv zeta in IHp, IHi. split.
        * rewrite IHp, Hp, <- app_assoc. reflexivity.
        * intros _. destruct ps as [|q ps]; [exact Hi|].
          apply IHi. discriminate. }
  destruct (H paths (Legacy.new_HistoryService loc)) as [Hp Hi].
  - reflexivity.
  - cbn. unfold Js.length. cbn. lia.
  - exact Hrep.
  - cbv zeta in Hp, Hi. fold s' in Hp, Hi. cbn in Hp.
    split; [exact Hp|]. split.
    + unfold Legacy.historyLength. rewrite Hp. reflexivity.
    + intros Hne. rewrite (Hi Hne), Hp. reflexivity.
Qed.

Lemma legacy_history_is_unbounded_witness :
  Legacy._paths
    (foldl Legacy.notify (Legacy.new_HistoryService "") ["/a"; "/b"; "/a"])
  = ["/a"; "/b"; "/a"].
Proof.
  destruct (legacy_history_is_unbounded "" ["/a"; "/b"; "/a"]) as (H & _).
  - cbn. repeat split; discriminate.
  - exact H.
Defined.

(** X21: in the earlier service [goBack()] followed by [goForward()]
    brings the index back, both answering [true] at once, whenever
    [canGoBack] holds and the index is inside the stack: the stack is
    untouched and the second router call is for the entry the index was
    on. *)
Theorem legacy_back_then_forward_restores_the_index s :
  Legacy.canGoBack s = true ->
  Legacy._currentIndex s < Js.length (Legacy._paths s) ->
  let back := Legacy.goBack s in
  let forward := Legacy.goForward back.1.1 in
  back.1.2 = true /\
  Legacy._currentIndex back.1.1 = Legacy._currentIndex s - 1 /\
  forward.1.2 = true /\
  Legacy._currentIndex forward.1.1 = Legacy._currentIndex s /\
  Legacy._paths forward.1.1 = Legacy._paths s /\
  forward.2
  = Some (Js.get (Legacy._paths s) (Legacy._currentIndex s)) /\
  Legacy.isInternalNavigation forward.1.1 = true.
Proof.
  intros Hback Hlt. unfold Legacy.canGoBack in Hback. apply Z.ltb_lt in Hback.
  assert (E1 : Legacy.goBack s
               = (Legacy.set_currentIndex (Legacy._currentIndex s - 1)
                    (Legacy.set_isInternalNavigation true s), true,
                  Some (Js.get (Legacy._paths s) (Legacy._currentIndex s - 1)))).
  { unfold Legacy.goBack, Legacy.canGoBack, Legacy.navigateToIndex.
    destruct (Z.ltb_spec 0 (Legacy._currentIndex s)); [|lia]. cbn [negb].
    destruct (Z.ltb_spec (Legacy._currentIndex s - 1) 0); [lia|].
    destruct (Z.leb_spec (Js.length (Legacy._paths s)) (Legacy._currentIndex s - 1));
      [lia|].
    reflexivity. }
  cbv zeta. rewrite E1. cbn [fst snd].
  unfold Legacy.goForward, Legacy.canGoForward, Legacy.navigateToIndex. cbn.
  destruct (Z.ltb_spec (Legacy._currentIndex s - 1)
              (Js.length (Legacy._paths s) - 1)); [|lia]. cbn [negb].
  destruct (Z.ltb_spec (Legacy._currentIndex s - 1 + 1) 0); [lia|].
  destruct (Z.leb_spec (Js.length (Legacy._paths s)) (Legacy._currentIndex s - 1 + 1));
    [lia|].
  cbn. replace (Legacy._currentIndex s - 1 + 1) with (Legacy._currentIndex s) by lia.
  repeat split.
Qed.

Lemma legacy_back_then_forward_restores_the_index_witness :
  let s := foldl Legacy.notify (Legacy.new_HistoryService "") ["/a"; "/b"] in
  Legacy._currentIndex (Legacy.goForward (Legacy.goBack s).1.1).1.1 = 1.
Proof.
  intros s.
  destruct (legacy_back_then_forward_restores_the_index s) as (_ & _ & _ & H & _).
  - reflexivity.
  - vm_compute. reflexivity.
  - exact H.
Defined.



(** * Requests that arrive while a navigation is in flight *)








